(** * SET: the card model, the set-detection engine, the replacement
    manager and the playing branch of the event loop of [set.py],
    embedded as executable definitions, together with the properties
    stated about them. *)

From Stdlib Require Import ZArith String Ascii List Lia Permutation.
From stdpp Require Import base option list strings gmap sorting.

(** ** Exceptions

    Python code fails by raising.  Every function that can raise
    returns a [result]; the exception names are the ones the
    interpreter would report. *)

Inductive exn : Type :=
| KeyError
| IndexError
| ValueError
| AttributeError
| TypeError.

Inductive result (A : Type) : Type :=
| Ok (a : A)
| Raise (e : exn).

Arguments Ok {A} a.
Arguments Raise {A} e.

#[global] Instance result_ret : MRet result := fun A a => Ok a.

#[global] Instance result_bind : MBind result := fun A B f m =>
  match m with
  | Ok a => f a
  | Raise e => Raise e
  end.

(** ** Card model *)

Record Card : Type := mkCard {
  color : string;
  symbol : string;
  shading : string;
  number : Z;
  filename : string
}.

(** [d[k]] on a dict with string keys. *)
Definition dict_get {V : Type} (d : gmap string V) (k : string) : result V :=
  match d !! k with
  | Some v => Ok v
  | None => Raise KeyError
  end.

Definition colors : gmap string Z :=
  {[ "red" := 0%Z; "green" := 1%Z; "purple" := 2%Z ]}.

Definition symbols : gmap string Z :=
  {[ "diamond" := 0%Z; "squiggle" := 1%Z; "oval" := 2%Z ]}.

Definition shadings : gmap string Z :=
  {[ "empty" := 0%Z; "filled" := 1%Z; "shaded" := 2%Z ]}.

Definition vector : Type := (Z * Z * Z * Z)%type.

(** [Card.as_vector] *)
Definition as_vector (self : Card) : result vector :=
  c ← dict_get colors (color self);
  s ← dict_get symbols (symbol self);
  h ← dict_get shadings (shading self);
  mret (c, s, h, (number self - 1)%Z).

(** [v[i]] for the positions [range(4)] the code reads. *)
Definition tuple_get (v : vector) (i : nat) : Z :=
  let '(a, b, c, d) := v in
  match i with
  | 0 => a
  | 1 => b
  | 2 => c
  | _ => d
  end.

(** [range(a, b)] *)
Definition range (a b : nat) : list nat := seq a (b - a).

(** ** Set-detection engine *)

(** The body of the [for i in range(4)] loop of [is_set]: the set
    comprehension, the size test, the early [return False]. *)
Fixpoint is_set_loop (vectors : list vector) (positions : list nat) : bool :=
  match positions with
  | [] => true
  | i :: rest =>
      let values : gset Z := list_to_set ((fun v => tuple_get v i) <$> vectors) in
      if negb (bool_decide (size values ∈ ({[ 1; 3 ]} : gset nat)))
      then false
      else is_set_loop vectors rest
  end.

Definition is_set (card1 card2 card3 : Card) : result bool :=
  v1 ← as_vector card1;
  v2 ← as_vector card2;
  v3 ← as_vector card3;
  mret (is_set_loop [v1; v2; v3] (range 0 4)).

(** [is_set] as the interpreter runs it on three objects, any of which
    may be [None]: [None.as_vector()] raises [AttributeError]. *)
Definition obj_as_vector (o : option Card) : result vector :=
  match o with
  | Some card => as_vector card
  | None => Raise AttributeError
  end.

Definition is_set_obj (card1 card2 card3 : option Card) : result bool :=
  v1 ← obj_as_vector card1;
  v2 ← obj_as_vector card2;
  v3 ← obj_as_vector card3;
  mret (is_set_loop [v1; v2; v3] (range 0 4)).

(** [l[i]] for [i] produced by [range] or guarded by [0 <= i]. *)
Definition list_get {A : Type} (l : list A) (i : nat) : result A :=
  match l !! i with
  | Some x => Ok x
  | None => Raise IndexError
  end.

(** A [for] loop whose body may [return] a value out of the enclosing
    function: [Some b] stops the loop, [None] goes on. *)
Fixpoint first_hit {A B : Type} (body : A → result (option B)) (l : list A)
  : result (option B) :=
  match l with
  | [] => Ok None
  | x :: l' =>
      r ← body x;
      match r with
      | Some b => Ok (Some b)
      | None => first_hit body l'
      end
  end.

(** A [for] loop that updates local state and never returns early. *)
Fixpoint for_each {A S : Type} (body : A → S → result S) (l : list A) (s : S)
  : result S :=
  match l with
  | [] => Ok s
  | x :: l' => s' ← body x s; for_each body l' s'
  end.

Definition triple : Type := (nat * nat * nat)%type.

(** The test shared by both searches:
    [is_set(cards[i], cards[j], cards[k])]. *)
Definition is_set_at (cards : list Card) (i j k : nat) : result bool :=
  ci ← list_get cards i;
  cj ← list_get cards j;
  ck ← list_get cards k;
  is_set ci cj ck.

Definition find_one_set (cards : list Card) : result (option triple) :=
  first_hit (fun i =>
    first_hit (fun j =>
      first_hit (fun k =>
        b ← is_set_at cards i j k;
        mret (if b : bool then Some (i, j, k) else None))
      (range (j + 1) (length cards)))
    (range (i + 1) (length cards)))
  (range 0 (length cards)).

Definition find_all_sets (cards : list Card) : result (list triple) :=
  for_each (fun i sets =>
    for_each (fun j sets =>
      for_each (fun k sets =>
        b ← is_set_at cards i j k;
        mret (if b : bool then sets ++ [(i, j, k)] else sets))
      (range (j + 1) (length cards)) sets)
    (range (i + 1) (length cards)) sets)
  (range 0 (length cards)) [].

(** ** Decoding a file name *)

(** [sub in s] *)
Fixpoint contains (sub s : string) : bool :=
  String.prefix sub s ||
  match s with
  | EmptyString => false
  | String _ s' => contains sub s'
  end.

(** [s.split(sep)] for a non-empty [sep]: [skip] counts the characters of
    the separator still to be passed over, [cur] is the part being read. *)
Fixpoint split_go (sep : string) (skip : nat) (cur s : string) : list string :=
  match s with
  | EmptyString => [cur]
  | String ch s' =>
      match skip with
      | S n => split_go sep n cur s'
      | 0 =>
          if String.prefix sep s
          then cur :: split_go sep (String.length sep - 1) EmptyString s'
          else split_go sep 0 (cur +:+ String ch EmptyString) s'
      end
  end.

Definition split (s sep : string) : list string := split_go sep 0 EmptyString s.

(** [s[:-n]] and [s[:n]] *)
Definition drop_last (n : nat) (s : string) : string :=
  substring 0 (String.length s - n) s.

Definition take_first (n : nat) (s : string) : string := substring 0 n s.

(** [s[-1]] *)
Definition last_char (s : string) : result ascii :=
  match String.get (String.length s - 1) s with
  | Some ch => Ok ch
  | None => Raise IndexError
  end.

(** [s.endswith(suffix)] *)
Definition endswith (s suffix : string) : bool :=
  (String.length suffix <=? String.length s) &&
  String.eqb
    (substring (String.length s - String.length suffix) (String.length suffix) s)
    suffix.

(** [int(ch)] on a one-character string; characters are code points
    below 256, among which only ['0'] to ['9'] are decimal digits. *)
Definition int_of_char (ch : ascii) : result Z :=
  let n := nat_of_ascii ch in
  if (48 <=? n) && (n <=? 57) then Ok (Z.of_nat (n - 48)) else Raise ValueError.

Definition color_map : gmap string string :=
  {[ "red" := "red"; "gre" := "green"; "pur" := "purple" ]}.

(** [Card.from_filename] *)
Definition from_filename (filename : string) : result Card :=
  let symbol :=
    if contains "squiggle" filename then "squiggle"
    else if contains "oval" filename then "oval" else "diamond" in
  let parts := split (drop_last 4 filename) symbol in
  part0 ← list_get parts 0;
  let color_abbreviation := take_first 3 part0 in
  color ← dict_get color_map color_abbreviation;
  part1 ← list_get parts 1;
  let shading := drop_last 1 part1 in
  digit ← last_char part1;
  number ← int_of_char digit;
  mret (mkCard color symbol shading number filename).

(** [load_cards_from_folder], on the listing [os.listdir(folder)]
    returns. *)
Definition load_cards_from_folder (card_files : list string) : result (list Card) :=
  for_each (fun f cards => card ← from_filename f; mret (cards ++ [card]))
    (filter (fun f => endswith f ".gif" = true) card_files) [].

(** ** Deck and replacement manager *)

Abbreviation board := (list (option Card)).

(** [l[i] = x]: an index outside the list raises. *)
Definition list_set {A : Type} (l : list A) (i : nat) (x : A) : result (list A) :=
  if decide (i < length l) then Ok (<[i := x]> l) else Raise IndexError.

(** One turn of the loop of [replace_cards] on the two lists it mutates,
    [displayed_cards] and [remaining_deck].  The right-hand side
    [remaining_deck.pop(0)] runs before the store. *)
Definition replace_step (idx : nat) (st : board * list Card)
  : result (board * list Card) :=
  let '(displayed_cards, remaining_deck) := st in
  match remaining_deck with
  | card :: remaining_deck' =>
      displayed_cards' ← list_set displayed_cards idx (Some card);
      mret (displayed_cards', remaining_deck')
  | [] =>
      displayed_cards' ← list_set displayed_cards idx None;
      mret (displayed_cards', [])
  end.

(** [replace_cards].  Indices are naturals: every caller passes indices
    that come out of [range] or passed the guard [0 <= clicked_index]. *)
Definition replace_cards (indices : list nat) (st : board * list Card)
  : result (board * list Card) :=
  for_each replace_step indices st.

(** ** The event loop *)

Inductive GameState : Type := Home | Playing | End.

Inductive Event : Type :=
| QUIT
| USEREVENT
| MOUSEBUTTONDOWN (x y : Z)
| OTHER.

(** The variables of [main] the handlers read and write. *)
Record Game : Type := mkGame {
  game_state : GameState;
  home_timer : Z;
  timer : Z;
  player_score : Z;
  computer_score : Z;
  displayed_cards : board;
  remaining_deck : list Card;
  selected_cards : list nat;
  all_cards : list Card
}.

(** [[card for card in displayed_cards if card is not None]] *)
Definition cards_on (displayed : board) : list Card := omap id displayed.

(** The assignment [game_state = s]. *)
Definition with_game_state (s : GameState) (g : Game) : Game :=
  {| game_state := s;
     home_timer := home_timer g;
     timer := timer g;
     player_score := player_score g;
     computer_score := computer_score g;
     displayed_cards := displayed_cards g;
     remaining_deck := remaining_deck g;
     selected_cards := selected_cards g;
     all_cards := all_cards g |}.

(** [reset_game]; [shuffled] is the order [random.shuffle] leaves
    [all_cards] in.  [selected_cards] is not touched. *)
Definition reset_game (shuffled : list Card) (g : Game) : Game :=
  {| game_state := game_state g;
     home_timer := home_timer g;
     timer := home_timer g;
     player_score := 0;
     computer_score := 0;
     displayed_cards := Some <$> take 12 shuffled;
     remaining_deck := drop 12 shuffled;
     selected_cards := selected_cards g;
     all_cards := shuffled |}.

(** The [USEREVENT] branch of the playing state (the one-second tick). *)
Definition on_tick (g : Game) : result Game :=
  let timer1 := (timer g - 1)%Z in
  if (timer1 <=? 0)%Z then
    found_set ← find_one_set (cards_on (displayed_cards g));
    match found_set with
    | Some (i, j, k) =>
        '(displayed, remaining) ←
          replace_cards [i; j; k] (displayed_cards g, remaining_deck g);
        mret {| game_state := game_state g;
                home_timer := home_timer g;
                timer := home_timer g;
                player_score := player_score g;
                computer_score := (computer_score g + 1)%Z;
                displayed_cards := displayed;
                remaining_deck := remaining;
                selected_cards := selected_cards g;
                all_cards := all_cards g |}
    | None =>
        '(displayed, remaining) ←
          replace_cards [0; 1; 2] (displayed_cards g, remaining_deck g);
        mret {| game_state := game_state g;
                home_timer := home_timer g;
                timer := home_timer g;
                player_score := player_score g;
                computer_score := computer_score g;
                displayed_cards := displayed;
                remaining_deck := remaining;
                selected_cards := selected_cards g;
                all_cards := all_cards g |}
    end
  else
    mret {| game_state := game_state g;
            home_timer := home_timer g;
            timer := timer1;
            player_score := player_score g;
            computer_score := computer_score g;
            displayed_cards := displayed_cards g;
            remaining_deck := remaining_deck g;
            selected_cards := selected_cards g;
            all_cards := all_cards g |}.

(** [(mouse_y // 200) * 4 + (mouse_x // 250)] *)
Definition clicked_index (mouse_x mouse_y : Z) : Z :=
  (mouse_y / 200 * 4 + mouse_x / 250)%Z.

(** The guard of the click:
    [0 <= clicked_index < len(displayed_cards) and
     displayed_cards[clicked_index] is not None]. *)
Definition click_hits (displayed : board) (ci : Z) : bool :=
  (0 <=? ci)%Z && (ci <? Z.of_nat (length displayed))%Z &&
  match displayed !! Z.to_nat ci with
  | Some (Some _) => true
  | _ => false
  end.

(** [selected_cards.remove(x)]: the first occurrence goes. *)
Fixpoint list_remove_first (x : nat) (l : list nat) : list nat :=
  match l with
  | [] => []
  | y :: l' => if decide (y = x) then l' else y :: list_remove_first x l'
  end.

(** The toggle of a clicked index in [selected_cards]. *)
Definition toggle (idx : nat) (selected : list nat) : list nat :=
  if bool_decide (idx ∈ selected)
  then list_remove_first idx selected
  else selected ++ [idx].

(** The call of [is_set] on the unpacked list [cards], which the caller
    has checked to hold three objects. *)
Definition is_set_star (cards : list (option Card)) : result bool :=
  match cards with
  | [card1; card2; card3] => is_set_obj card1 card2 card3
  | _ => Raise TypeError
  end.

(** The [MOUSEBUTTONDOWN] branch of the playing state. *)
Definition on_click (mouse_x mouse_y : Z) (g : Game) : result Game :=
  let ci := clicked_index mouse_x mouse_y in
  if click_hits (displayed_cards g) ci then
    let selected := toggle (Z.to_nat ci) (selected_cards g) in
    if length selected =? 3 then
      cards ← for_each (fun i cards => card ← list_get (displayed_cards g) i;
                                       mret (cards ++ [card])) selected [];
      valid ← is_set_star cards;
      if valid : bool then
        '(displayed, remaining) ←
          replace_cards selected (displayed_cards g, remaining_deck g);
        mret {| game_state := game_state g;
                home_timer := home_timer g;
                timer := home_timer g;
                player_score := (player_score g + 1)%Z;
                computer_score := computer_score g;
                displayed_cards := displayed;
                remaining_deck := remaining;
                selected_cards := [];
                all_cards := all_cards g |}
      else
        mret {| game_state := game_state g;
                home_timer := home_timer g;
                timer := timer g;
                player_score := player_score g;
                computer_score := computer_score g;
                displayed_cards := displayed_cards g;
                remaining_deck := remaining_deck g;
                selected_cards := [];
                all_cards := all_cards g |}
    else
      mret {| game_state := game_state g;
              home_timer := home_timer g;
              timer := timer g;
              player_score := player_score g;
              computer_score := computer_score g;
              displayed_cards := displayed_cards g;
              remaining_deck := remaining_deck g;
              selected_cards := selected;
              all_cards := all_cards g |}
  else mret g.

(** The check that closes the playing branch:
    [not find_all_sets(...) and not remaining_deck]. *)
Definition end_check (g : Game) : result Game :=
  sets ← find_all_sets (cards_on (displayed_cards g));
  if bool_decide (sets = []) && bool_decide (remaining_deck g = [])
  then mret (with_game_state End g)
  else mret g.

(** The playing branch of the loop body, for one event other than
    [QUIT]: the two [if]s on the event type, then the end check. *)
Definition playing_event (ev : Event) (g : Game) : result Game :=
  g1 ← match ev with
       | USEREVENT => on_tick g
       | _ => mret g
       end;
  g2 ← match ev with
       | MOUSEBUTTONDOWN x y => on_click x y g1
       | _ => mret g1
       end;
  end_check g2.

(** [lo <= v <= hi] *)
Definition between (lo v hi : Z) : bool := (lo <=? v)%Z && (v <=? hi)%Z.

(** The home branch: the up, down and start buttons. *)
Definition home_event (shuffled : list Card) (ev : Event) (g : Game) : Game :=
  match ev with
  | MOUSEBUTTONDOWN x y =>
      if between 600 x 640 && between 350 y 390 then
        {| game_state := game_state g;
           home_timer := (home_timer g + 1)%Z;
           timer := timer g;
           player_score := player_score g;
           computer_score := computer_score g;
           displayed_cards := displayed_cards g;
           remaining_deck := remaining_deck g;
           selected_cards := selected_cards g;
           all_cards := all_cards g |}
      else if between 650 x 690 && between 350 y 390 then
        {| game_state := game_state g;
           home_timer := Z.max 1 (home_timer g - 1);
           timer := timer g;
           player_score := player_score g;
           computer_score := computer_score g;
           displayed_cards := displayed_cards g;
           remaining_deck := remaining_deck g;
           selected_cards := selected_cards g;
           all_cards := all_cards g |}
      else if between 450 x 600 && between 400 y 440 then
        with_game_state Playing (reset_game shuffled g)
      else g
  | _ => g
  end.

(** The end branch: the replay button. *)
Definition end_event (ev : Event) (g : Game) : Game :=
  match ev with
  | MOUSEBUTTONDOWN x y =>
      if between 450 x 600 && between 500 y 540 then with_game_state Home g
      else g
  | _ => g
  end.

(** The body of [for event in pygame.event.get()] for an event other
    than [QUIT]. *)
Definition handle_event (shuffled : list Card) (ev : Event) (g : Game) : result Game :=
  match game_state g with
  | Home => mret (home_event shuffled ev g)
  | Playing => playing_event ev g
  | End => mret (end_event ev g)
  end.

(** The events of a run, in arrival order, up to the first [QUIT] (which
    leaves [main]); every shuffle of the run yields [shuffled]. *)
Fixpoint run (shuffled : list Card) (events : list Event) (g : Game) : result Game :=
  match events with
  | [] => Ok g
  | QUIT :: _ => Ok g
  | ev :: events' => g' ← handle_event shuffled ev g; run shuffled events' g'
  end.

(** The state [main] enters its loop in: the initial values of its
    variables, then the call of [reset_game]. *)
Definition initial_game (shuffled : list Card) : Game :=
  reset_game shuffled
    {| game_state := Home;
       home_timer := 30;
       timer := 30;
       player_score := 0;
       computer_score := 0;
       displayed_cards := [];
       remaining_deck := [];
       selected_cards := [];
       all_cards := shuffled |}.

(** ** Specification-side notions *)

(** The number of distinct values in a list of attribute values. *)
Definition distinct_count (l : list Z) : nat := length (remove_dups l).

(** The attribute values of three vectors at one position. *)
Definition column (va vb vc : vector) (i : nat) : list Z :=
  [tuple_get va i; tuple_get vb i; tuple_get vc i].

(** The four attributes of a card, without its file name. *)
Definition attributes (c : Card) : string * string * string * Z :=
  (color c, symbol c, shading c, number c).

(** The Cartesian product of the three 3-valued attributes and the
    numbers 1 to 3. *)
Definition combinations : list (string * string * string * Z) :=
  c ← ["red"; "green"; "purple"];
  s ← ["diamond"; "squiggle"; "oval"];
  h ← ["empty"; "filled"; "shaded"];
  n ← [1; 2; 3]%Z;
  [(c, s, h, n)].

(** The 81-card universe: a deck that holds one card per combination. *)
Definition full_deck (deck : list Card) : Prop :=
  attributes <$> deck ≡ₚ combinations.

(** [as_vector] reads the attributes only. *)
Definition attributes_vector (t : string * string * string * Z) : result vector :=
  let '(c, s, h, n) := t in as_vector (mkCard c s h n EmptyString).

(** The vectors with every component in [{0, 1, 2}]. *)
Definition cube : list vector :=
  x ← [0; 1; 2]%Z; y ← [0; 1; 2]%Z; z ← [0; 1; 2]%Z; w ← [0; 1; 2]%Z;
  [(x, y, z, w)].

Definition is_digit (x : Z) : bool := (0 <=? x)%Z && (x <=? 2)%Z.

Definition in_cube (v : vector) : bool :=
  let '(x, y, z, w) := v in is_digit x && is_digit y && is_digit z && is_digit w.

(** The value that completes two attribute values to a set. *)
Definition third (x y : Z) : Z := ((- (x + y)) mod 3)%Z.

Definition third_vector (va vb : vector) : vector :=
  let '(xa, ya, za, wa) := va in
  let '(xb, yb, zb, wb) := vb in
  (third xa xb, third ya yb, third za zb, third wa wb).

(** Modelled from the spec: the folder [kaarten] that
    [load_cards_from_folder] lists holds the card images and is not among
    the sources.  The spec has the asset collaborator supply one image for
    each of the 81 cards; the names follow the convention [from_filename]
    decodes, of which its comment gives the instance
    [redsquiggleempty3.gif]. *)
Definition kaarten : list string :=
  c ← ["red"; "green"; "purple"];
  s ← ["diamond"; "squiggle"; "oval"];
  h ← ["empty"; "filled"; "shaded"];
  n ← ["1"; "2"; "3"];
  [c +:+ s +:+ h +:+ n +:+ ".gif"].

(** The deck loaded from [kaarten], in listing order. *)
Definition kaarten_cards : list Card :=
  match load_cards_from_folder kaarten with
  | Ok cards => cards
  | Raise _ => []
  end.

(** The index triples the two searches visit, in the order of the three
    nested loops. *)
Definition triples (n : nat) : list triple :=
  i ← range 0 n; j ← range (i + 1) n; k ← range (j + 1) n; [(i, j, k)].

Definition test_at (cards : list Card) (t : triple) : result bool :=
  let '(i, j, k) := t in is_set_at cards i j k.

(** Lexicographic order on index triples. *)
Definition lex_lt (t t' : triple) : Prop :=
  let '(i, j, k) := t in
  let '(i', j', k') := t' in
  i < i' ∨ (i = i' ∧ (j < j' ∨ (j = j' ∧ k < k'))).

(** [i < j < k < n] *)
Definition increasing (n : nat) (t : triple) : Prop :=
  let '(i, j, k) := t in i < j ∧ j < k ∧ k < n.

(** The bodies of the two searches, on one index triple. *)
Definition hit (test : triple → result bool) (t : triple) : result (option triple) :=
  b ← test t; mret (if b : bool then Some t else None).

Definition collect (test : triple → result bool) (t : triple) (sets : list triple)
  : result (list triple) :=
  b ← test t; mret (if b : bool then sets ++ [t] else sets).

#[global] Instance exn_eq_dec : EqDecision exn.
Proof. solve_decision. Defined.

#[global] Instance result_eq_dec {A : Type} `{EqDecision A} : EqDecision (result A).
Proof. solve_decision. Defined.

#[global] Instance Card_eq_dec : EqDecision Card.
Proof. solve_decision. Defined.

(** The attributes [from_filename] decodes from a name, when it decodes. *)
Definition decode_attributes (f : string) : option (string * string * string * Z) :=
  match from_filename f with
  | Ok card => Some (attributes card)
  | Raise _ => None
  end.

(** The cards the engine can test: those [as_vector] accepts. *)
Definition has_vector (c : Card) : Prop := ∃ v, as_vector c = Ok v.

(** Every card on the board and in the deck has a vector. *)
Definition cards_valid (displayed : board) (deck : list Card) : Prop :=
  (∀ c, Some c ∈ displayed → has_vector c) ∧ (∀ c, c ∈ deck → has_vector c).

(** Every selected index points at a slot that holds a card. *)
Definition selection_on_cards (displayed : board) (selected : list nat) : Prop :=
  ∀ i, i ∈ selected → ∃ c, displayed !! i = Some (Some c).

(** Two states with the same board, deck, scores and timers. *)
Definition same_table (g g' : Game) : Prop :=
  displayed_cards g' = displayed_cards g ∧
  remaining_deck g' = remaining_deck g ∧
  player_score g' = player_score g ∧
  computer_score g' = computer_score g ∧
  timer g' = timer g ∧
  home_timer g' = home_timer g.

(** A game on the deck of [kaarten] that the shuffles leave in listing
    order: 29 clicks on the down button bring the round down to one second,
    a click on the start button deals, and [ticks] seconds pass with no
    click of the player. *)
Definition down_button : Event := MOUSEBUTTONDOWN 660 360.

Definition start_button : Event := MOUSEBUTTONDOWN 500 420.

Definition one_second_rounds (ticks : nat) : list Event :=
  replicate 29 down_button ++ [start_button] ++ replicate ticks USEREVENT.

Definition game_after (ticks : nat) : result Game :=
  run kaarten_cards (one_second_rounds ticks) (initial_game kaarten_cards).

(** The state [ticks] seconds into that game. *)
Definition game_at (ticks : nat) : Game :=
  match game_after ticks with
  | Ok g => g
  | Raise _ => initial_game kaarten_cards
  end.

(** The same game with a player: after the deal the player picks slot 0,
    24 seconds pass, and the player picks slot 3. *)
Definition pick_slot_0 : Event := MOUSEBUTTONDOWN 10 10.

Definition pick_slot_3 : Event := MOUSEBUTTONDOWN 760 10.

Definition pick_slot_4 : Event := MOUSEBUTTONDOWN 10 210.

Definition two_picks : list Event :=
  replicate 29 down_button ++ [start_button; pick_slot_0] ++
  replicate 24 USEREVENT ++ [pick_slot_3].

Definition game_after_two_picks : Game :=
  match run kaarten_cards two_picks (initial_game kaarten_cards) with
  | Ok g => g
  | Raise _ => initial_game kaarten_cards
  end.

(** The table dealt from the deck of [kaarten], in the playing state. *)
Definition dealt_game : Game := with_game_state Playing (initial_game kaarten_cards).

(** [as_vector] accepts every card of the list. *)
Definition all_have_vector (cards : list Card) : bool :=
  forallb (fun c => match as_vector c with Ok _ => true | Raise _ => false end) cards.

(** The name of the image of a card: color, symbol, shading, the number as
    one digit, and the extension, as in [redsquiggleempty3.gif]. *)
Definition card_name (c s h : string) (n : Z) : string :=
  c +:+ s +:+ h +:+ String (ascii_of_nat (48 + Z.to_nat n)) EmptyString +:+ ".gif".

(** Where [draw_game_state] puts the image of slot [i]:
    [x = (i % 4) * 250 + 10], [y = (i // 4) * 200 + 10]. *)
Definition card_position (i : Z) : Z * Z :=
  ((i mod 4) * 250 + 10, i / 4 * 200 + 10)%Z.

(** The state after one more event of the game on the deck of [kaarten]. *)
Definition after_event (ev : Event) (g : Game) : Game :=
  match handle_event kaarten_cards ev g with
  | Ok g' => g'
  | Raise _ => g
  end.

(** * Properties *)

(** ** The exception monad *)

Lemma bind_Ok {A B : Type} (a : A) (f : A → result B) : Ok a ≫= f = f a.
Proof. reflexivity. Qed.

Lemma bind_Raise {A B : Type} (e : exn) (f : A → result B) :
  Raise e ≫= f = Raise e.
Proof. reflexivity. Qed.

Lemma ret_Ok {A : Type} (a : A) : mret a = Ok a.
Proof. reflexivity. Qed.

Ltac run_result :=
  repeat (rewrite ?bind_Ok, ?bind_Raise, ?ret_Ok in *; cbn beta iota in * ).

Lemma bind_Ok_inv {A B : Type} (m : result A) (f : A → result B) (b : B) :
  m ≫= f = Ok b → ∃ a, m = Ok a ∧ f a = Ok b.
Proof. destruct m as [a|e]; run_result; [eauto|done]. Qed.

(** Reads the fields of a state that is written out. *)
Ltac fields :=
  cbn [game_state home_timer timer player_score computer_score displayed_cards
       remaining_deck selected_cards all_cards with_game_state] in *.

(** ** [is_set] *)

Lemma one_or_three (n : nat) :
  bool_decide (n ∈ ({[ 1; 3 ]} : gset nat)) = true ↔ n = 1 ∨ n = 3.
Proof. rewrite bool_decide_eq_true. set_solver. Qed.

Lemma size_values (l : list Z) :
  size (list_to_set l : gset Z) = distinct_count l.
Proof.
  unfold distinct_count.
  rewrite <- (size_list_to_set (C := gset Z) (remove_dups l))
    by apply NoDup_remove_dups.
  f_equal. apply set_eq. intros x.
  rewrite !elem_of_list_to_set. symmetry. apply elem_of_remove_dups.
Qed.

Lemma is_set_loop_true (vectors : list vector) (positions : list nat) :
  is_set_loop vectors positions = true ↔
  ∀ i, i ∈ positions →
    distinct_count ((fun v => tuple_get v i) <$> vectors) = 1 ∨
    distinct_count ((fun v => tuple_get v i) <$> vectors) = 3.
Proof.
  induction positions as [|p ps IH]; simpl.
  - split; [intros _ i Hi; inversion Hi | done].
  - destruct (bool_decide _) eqn:E; simpl.
    + rewrite IH. apply one_or_three in E. rewrite size_values in E.
      split.
      * intros H i Hi. apply elem_of_cons in Hi as [->|Hi]; auto.
      * intros H i Hi. apply H. by apply elem_of_cons; right.
    + split; [done|]. intros H.
      assert (bool_decide
        (size (list_to_set ((fun v => tuple_get v p) <$> vectors) : gset Z)
           ∈ ({[ 1; 3 ]} : gset nat)) = true) as E'.
      { apply one_or_three. rewrite size_values. apply H. by left. }
      congruence.
Qed.

Lemma is_set_loop_perm (vs vs' : list vector) (positions : list nat) :
  vs ≡ₚ vs' → is_set_loop vs positions = is_set_loop vs' positions.
Proof.
  intros Hp. induction positions as [|p ps IH]; simpl; [done|].
  rewrite IH.
  by rewrite (list_to_set_perm_L (C := gset Z) _ _ (fmap_Permutation _ _ _ Hp)).
Qed.

Lemma is_set_vectors (a b c : Card) (va vb vc : vector) :
  as_vector a = Ok va → as_vector b = Ok vb → as_vector c = Ok vc →
  is_set a b c = Ok (is_set_loop [va; vb; vc] (range 0 4)).
Proof. intros Ha Hb Hc. unfold is_set. by rewrite Ha, Hb, Hc. Qed.

Lemma distinct_count_three (x y z : Z) :
  distinct_count [x; y; z] = 1 ∨ distinct_count [x; y; z] = 2 ∨
  distinct_count [x; y; z] = 3.
Proof.
  unfold distinct_count. cbn [remove_dups].
  repeat (destruct (decide_rel _ _ _)); cbn [length]; auto;
    match goal with H : _ ∈ [] |- _ => by apply elem_of_nil in H end.
Qed.

Lemma is_set_loop_false (va vb vc : vector) :
  is_set_loop [va; vb; vc] (range 0 4) = false ↔
  ∃ i, i < 4 ∧ distinct_count (column va vb vc i) = 2.
Proof.
  rewrite <- not_true_iff_false, is_set_loop_true. split.
  - intros H.
    destruct (decide (Exists
      (fun i => distinct_count (column va vb vc i) = 2) (range 0 4)))
      as [Hex|Hnex].
    + apply Exists_exists in Hex as (i & Hi & H2). exists i.
      unfold range in Hi. apply elem_of_seq in Hi. split; [lia|done].
    + exfalso. apply H. intros i Hi.
      destruct (distinct_count_three (tuple_get va i) (tuple_get vb i)
                  (tuple_get vc i)) as [?|[H2|?]]; auto.
      exfalso. apply Hnex, Exists_exists. eauto.
  - intros (i & Hi & H2) H.
    destruct (H i) as [H1|H3].
    + unfold range. apply elem_of_seq. lia.
    + change (distinct_count (column va vb vc i) = 1) in H1. congruence.
    + change (distinct_count (column va vb vc i) = 3) in H3. congruence.
Qed.

Lemma is_set_Ok (a b c : Card) (r : bool) :
  is_set a b c = Ok r ↔
  ∃ va vb vc, as_vector a = Ok va ∧ as_vector b = Ok vb ∧ as_vector c = Ok vc ∧
              is_set_loop [va; vb; vc] (range 0 4) = r.
Proof.
  unfold is_set. split.
  - destruct (as_vector a) as [va|], (as_vector b) as [vb|],
      (as_vector c) as [vc|]; try done.
    intros [= H]. by exists va, vb, vc.
  - intros (va & vb & vc & -> & -> & -> & H). by rewrite <- H.
Qed.

(** C1: for every three cards, [is_set] returns true exactly when the cards
    have vectors and at each of the four positions the three values have 1
    or 3 distinct values among them; it returns false exactly when they
    have vectors and at some position the values have 2 distinct values;
    and on cards that have vectors it returns. *)
Theorem is_set_iff_each_attribute (a b c : Card) :
  (is_set a b c = Ok true ↔
   ∃ va vb vc,
     as_vector a = Ok va ∧ as_vector b = Ok vb ∧ as_vector c = Ok vc ∧
     ∀ i, i < 4 →
       distinct_count (column va vb vc i) = 1 ∨
       distinct_count (column va vb vc i) = 3) ∧
  (is_set a b c = Ok false ↔
   ∃ va vb vc,
     as_vector a = Ok va ∧ as_vector b = Ok vb ∧ as_vector c = Ok vc ∧
     ∃ i, i < 4 ∧ distinct_count (column va vb vc i) = 2) ∧
  (∀ va vb vc,
     as_vector a = Ok va → as_vector b = Ok vb → as_vector c = Ok vc →
     ∃ r, is_set a b c = Ok r).
Proof.
  split; [|split].
  - rewrite is_set_Ok. split.
    + intros (va & vb & vc & Ha & Hb & Hc & H). exists va, vb, vc.
      repeat (split; [done|]). intros i Hi.
      apply (proj1 (is_set_loop_true _ _) H i).
      unfold range. apply elem_of_seq. lia.
    + intros (va & vb & vc & Ha & Hb & Hc & H). exists va, vb, vc.
      repeat (split; [done|]). apply is_set_loop_true. intros i Hi.
      apply H. unfold range in Hi. apply elem_of_seq in Hi. lia.
  - rewrite is_set_Ok. split.
    + intros (va & vb & vc & Ha & Hb & Hc & H). exists va, vb, vc.
      repeat (split; [done|]). by apply is_set_loop_false.
    + intros (va & vb & vc & Ha & Hb & Hc & H). exists va, vb, vc.
      repeat (split; [done|]). by apply is_set_loop_false.
  - intros va vb vc Ha Hb Hc. eexists. by apply is_set_vectors.
Qed.

(** The only exception [as_vector] raises is [KeyError]. *)
Lemma as_vector_raises (c : Card) (e : exn) :
  as_vector c = Raise e → e = KeyError.
Proof.
  unfold as_vector, dict_get.
  destruct (colors !! color c), (symbols !! symbol c),
    (shadings !! shading c); intros H; run_result; congruence.
Qed.

Lemma is_set_swap12 (a b c : Card) : is_set a b c = is_set b a c.
Proof.
  unfold is_set.
  destruct (as_vector a) as [va|ea] eqn:Ha, (as_vector b) as [vb|eb] eqn:Hb,
    (as_vector c) as [vc|ec] eqn:Hc; run_result;
    try apply as_vector_raises in Ha; try apply as_vector_raises in Hb;
    try apply as_vector_raises in Hc; subst; try done.
  f_equal. apply is_set_loop_perm, perm_swap.
Qed.

Lemma is_set_swap23 (a b c : Card) : is_set a b c = is_set a c b.
Proof.
  unfold is_set.
  destruct (as_vector a) as [va|ea] eqn:Ha, (as_vector b) as [vb|eb] eqn:Hb,
    (as_vector c) as [vc|ec] eqn:Hc; run_result;
    try apply as_vector_raises in Ha; try apply as_vector_raises in Hb;
    try apply as_vector_raises in Hc; subst; try done.
  f_equal. apply is_set_loop_perm, perm_skip, perm_swap.
Qed.

(** C8: [is_set] gives the same result (the same boolean, or an exception
    in the same cases) on each of the six orderings of its arguments. *)
Theorem is_set_symmetric (a b c : Card) :
  is_set a b c = is_set a c b ∧
  is_set a b c = is_set b a c ∧
  is_set a b c = is_set b c a ∧
  is_set a b c = is_set c a b ∧
  is_set a b c = is_set c b a.
Proof.
  repeat split.
  - apply is_set_swap23.
  - apply is_set_swap12.
  - rewrite (is_set_swap12 a b c). apply is_set_swap23.
  - rewrite (is_set_swap23 a b c). apply is_set_swap12.
  - rewrite (is_set_swap12 a b c), (is_set_swap23 b a c). apply is_set_swap12.
Qed.

(** ** The third card of a set *)

Lemma as_vector_attributes (c : Card) :
  as_vector c = attributes_vector (attributes c).
Proof. by destruct c. Qed.

Lemma combinations_vectors : attributes_vector <$> combinations = Ok <$> cube.
Proof. vm_compute. reflexivity. Qed.

Lemma full_deck_vectors (deck : list Card) :
  full_deck deck → as_vector <$> deck ≡ₚ Ok <$> cube.
Proof.
  unfold full_deck. intros Hd.
  rewrite <- combinations_vectors, <- Hd, <- list_fmap_compose.
  erewrite list_fmap_ext; [reflexivity|].
  intros _ c _. apply as_vector_attributes.
Qed.

Lemma cube_in_cube (v : vector) : v ∈ cube → in_cube v = true.
Proof.
  revert v. apply Forall_forall. vm_compute. repeat constructor.
Qed.

Lemma is_digit_cases (x : Z) : is_digit x = true → x = 0%Z ∨ x = 1%Z ∨ x = 2%Z.
Proof. unfold is_digit. lia. Qed.

Lemma in_cube_cube (v : vector) : in_cube v = true → v ∈ cube.
Proof.
  destruct v as [[[x y] z] w]. unfold in_cube.
  rewrite !andb_true_iff. intros [[[Hx Hy] Hz] Hw].
  apply is_digit_cases in Hx, Hy, Hz, Hw.
  destruct Hx as [-> | [-> | ->]], Hy as [-> | [-> | ->]], Hz as [-> | [-> | ->]],
    Hw as [-> | [-> | ->]]; apply (bool_decide_unpack _); vm_compute; exact I.
Qed.

Lemma column_third (x y z : Z) :
  is_digit x = true → is_digit y = true → is_digit z = true →
  (distinct_count [x; y; z] = 1 ∨ distinct_count [x; y; z] = 3) ↔ z = third x y.
Proof.
  intros Hx Hy Hz. apply is_digit_cases in Hx, Hy, Hz.
  destruct Hx as [-> | [-> | ->]], Hy as [-> | [-> | ->]],
    Hz as [-> | [-> | ->]]; vm_compute; intuition congruence.
Qed.

Lemma third_digit (x y : Z) : is_digit (third x y) = true.
Proof.
  unfold is_digit, third.
  pose proof (Z.mod_pos_bound (- (x + y)) 3). lia.
Qed.

Lemma third_vector_in_cube (va vb : vector) : in_cube (third_vector va vb) = true.
Proof.
  destruct va as [[[xa ya] za] wa], vb as [[[xb yb] zb] wb].
  unfold third_vector, in_cube. by rewrite !third_digit.
Qed.

Lemma is_set_loop_third (va vb vc : vector) :
  in_cube va = true → in_cube vb = true → in_cube vc = true →
  is_set_loop [va; vb; vc] (range 0 4) = true ↔ vc = third_vector va vb.
Proof.
  destruct va as [[[xa ya] za] wa], vb as [[[xb yb] zb] wb],
    vc as [[[xc yc] zc] wc].
  unfold in_cube. rewrite !andb_true_iff.
  intros [[[Hxa Hya] Hza] Hwa] [[[Hxb Hyb] Hzb] Hwb] [[[Hxc Hyc] Hzc] Hwc].
  rewrite is_set_loop_true. unfold third_vector. split.
  - intros H.
    pose proof (H 0 ltac:(by vm_compute; left)) as H0.
    pose proof (H 1 ltac:(by vm_compute; right; left)) as H1.
    pose proof (H 2 ltac:(by vm_compute; right; right; left)) as H2.
    pose proof (H 3 ltac:(by vm_compute; right; right; right; left)) as H3.
    cbn [fmap list_fmap tuple_get] in H0, H1, H2, H3.
    apply column_third in H0, H1, H2, H3; try done. congruence.
  - intros [= -> -> -> ->] i Hi. unfold range in Hi. apply elem_of_seq in Hi.
    assert (i = 0 ∨ i = 1 ∨ i = 2 ∨ i = 3) as [-> | [-> | [-> | ->]]] by lia;
      cbn [fmap list_fmap tuple_get]; by apply column_third.
Qed.

Lemma NoDup_fmap_inj_on {A B : Type} (f : A → B) (l : list A) (x y : A) :
  NoDup (f <$> l) → x ∈ l → y ∈ l → f x = f y → x = y.
Proof.
  induction l as [|z l IH]; [by intros _ Hx; inversion Hx|].
  rewrite fmap_cons, NoDup_cons. intros [Hz Hl] Hx Hy Hf.
  apply elem_of_cons in Hx as [-> | Hx], Hy as [-> | Hy]; auto.
  - exfalso. apply Hz. rewrite Hf. by apply list_elem_of_fmap_2.
  - exfalso. apply Hz. rewrite <- Hf. by apply list_elem_of_fmap_2.
Qed.

Lemma cube_NoDup : NoDup cube.
Proof. apply (bool_decide_unpack _). vm_compute. exact I. Qed.

Section Universe.

Variable deck : list Card.
Hypothesis deck_full : full_deck deck.

Lemma deck_card_vector (c : Card) :
  c ∈ deck → ∃ v, as_vector c = Ok v ∧ in_cube v = true.
Proof.
  intros Hc.
  assert (as_vector c ∈ Ok <$> cube) as Hin.
  { rewrite <- (full_deck_vectors deck deck_full). by apply list_elem_of_fmap_2. }
  apply list_elem_of_fmap in Hin as (v & Hv & Hcube).
  exists v. split; [done|]. by apply cube_in_cube.
Qed.

Lemma deck_vector_card (v : vector) :
  in_cube v = true → ∃ c, c ∈ deck ∧ as_vector c = Ok v.
Proof.
  intros Hv. apply in_cube_cube in Hv.
  assert (Ok v ∈ as_vector <$> deck) as Hin.
  { rewrite (full_deck_vectors deck deck_full). by apply list_elem_of_fmap_2. }
  apply list_elem_of_fmap in Hin as (c & Hc & Hdeck). eauto.
Qed.

Lemma deck_vector_inj (c c' : Card) :
  c ∈ deck → c' ∈ deck → as_vector c = as_vector c' → c = c'.
Proof.
  apply NoDup_fmap_inj_on.
  rewrite (full_deck_vectors deck deck_full).
  apply NoDup_fmap_2_strong; [|apply cube_NoDup]. by intros x y _ _ [= ->].
Qed.

End Universe.

Lemma third_fixed (x y : Z) :
  is_digit x = true → is_digit y = true →
  (x = third x y → x = y) ∧ (y = third x y → x = y).
Proof.
  intros Hx Hy. apply is_digit_cases in Hx, Hy.
  destruct Hx as [-> | [-> | ->]], Hy as [-> | [-> | ->]];
    vm_compute; split; congruence.
Qed.

Lemma third_vector_fixed (va vb : vector) :
  in_cube va = true → in_cube vb = true →
  va = third_vector va vb ∨ vb = third_vector va vb → va = vb.
Proof.
  destruct va as [[[xa ya] za] wa], vb as [[[xb yb] zb] wb].
  unfold in_cube, third_vector. rewrite !andb_true_iff.
  intros [[[Hxa Hya] Hza] Hwa] [[[Hxb Hyb] Hzb] Hwb].
  destruct (third_fixed xa xb Hxa Hxb), (third_fixed ya yb Hya Hyb),
    (third_fixed za zb Hza Hzb), (third_fixed wa wb Hwa Hwb).
  intros [[= ? ? ? ?] | [= ? ? ? ?]];
    assert (xa = xb) by auto; assert (ya = yb) by auto;
    assert (za = zb) by auto; assert (wa = wb) by auto; congruence.
Qed.

(** C7: in a deck that holds one card per combination, any two cards [a]
    and [b] are completed to a set by exactly one card [c] of the deck, and
    that card is [a] or [b] only when [a] and [b] are the same card. *)
Theorem third_card_exists_unique (deck : list Card) (a b : Card) :
  full_deck deck → a ∈ deck → b ∈ deck →
  (∃ c, c ∈ deck ∧ is_set a b c = Ok true ∧
        ∀ c', c' ∈ deck → is_set a b c' = Ok true → c' = c) ∧
  (∀ c, c ∈ deck → is_set a b c = Ok true → c = a ∨ c = b → a = b).
Proof.
  intros Hd Ha Hb.
  destruct (deck_card_vector deck Hd a Ha) as (va & Hva & Hca).
  destruct (deck_card_vector deck Hd b Hb) as (vb & Hvb & Hcb).
  assert (∀ c, c ∈ deck → is_set a b c = Ok true →
               as_vector c = Ok (third_vector va vb)) as Hthird.
  { intros c Hc Hset.
    destruct (deck_card_vector deck Hd c Hc) as (vc & Hvc & Hcc).
    rewrite (is_set_vectors a b c va vb vc Hva Hvb Hvc) in Hset.
    assert (is_set_loop [va; vb; vc] (range 0 4) = true) as Hl by congruence.
    apply is_set_loop_third in Hl; congruence. }
  split.
  - destruct (deck_vector_card deck Hd (third_vector va vb)
                (third_vector_in_cube va vb)) as (c & Hc & Hvc).
    exists c. split; [done|]. split.
    + rewrite (is_set_vectors a b c va vb _ Hva Hvb Hvc). f_equal.
      apply is_set_loop_third; auto using third_vector_in_cube.
    + intros c' Hc' Hset. apply (deck_vector_inj deck Hd); auto.
      rewrite Hvc. by apply Hthird.
  - intros c Hc Hset Hor. apply (deck_vector_inj deck Hd); auto.
    rewrite Hva, Hvb. f_equal.
    apply third_vector_fixed; auto.
    apply Hthird in Hset; auto.
    destruct Hor as [-> | ->]; [left | right]; congruence.
Qed.

Lemma kaarten_cards_full : full_deck kaarten_cards.
Proof. unfold full_deck. vm_compute. reflexivity. Qed.

Lemma third_card_exists_unique_witness :
  let a := mkCard "red" "oval" "empty" 1 "redovalempty1.gif" in
  let b := mkCard "green" "oval" "filled" 3 "greenovalfilled3.gif" in
  (∃ c, c ∈ kaarten_cards ∧ is_set a b c = Ok true ∧
        ∀ c', c' ∈ kaarten_cards → is_set a b c' = Ok true → c' = c) ∧
  (∀ c, c ∈ kaarten_cards → is_set a b c = Ok true → c = a ∨ c = b → a = b).
Proof.
  apply (third_card_exists_unique kaarten_cards).
  - apply kaarten_cards_full.
  - apply (bool_decide_unpack _). vm_compute. exact I.
  - apply (bool_decide_unpack _). vm_compute. exact I.
Defined.

(** ** The two searches *)

Section Loops.

Context {A B S : Type}.

Lemma first_hit_ext (f g : A → result (option B)) (l : list A) :
  (∀ x, x ∈ l → f x = g x) → first_hit f l = first_hit g l.
Proof.
  induction l as [|x l IH]; intros H; [done|]. cbn [first_hit].
  rewrite (H x) by left. rewrite IH; [done|].
  intros y Hy. apply H. by right.
Qed.

Lemma first_hit_app (f : A → result (option B)) (l1 l2 : list A) :
  first_hit f (l1 ++ l2) =
  r ← first_hit f l1;
  match r with
  | Some b => Ok (Some b)
  | None => first_hit f l2
  end.
Proof.
  induction l1 as [|x l1 IH]; [done|]. cbn [app first_hit].
  destruct (f x) as [[b|]|e]; run_result; auto.
Qed.

Lemma first_hit_singleton (f : A → result (option B)) (x : A) :
  first_hit f [x] = f x.
Proof. cbn [first_hit]. by destruct (f x) as [[b|]|e]. Qed.

Lemma first_hit_bind {C : Type} (f : A → result (option B)) (g : C → list A)
    (l : list C) :
  first_hit f (l ≫= g) = first_hit (fun x => first_hit f (g x)) l.
Proof.
  induction l as [|x l IH]; [done|].
  rewrite bind_cons, first_hit_app. cbn [first_hit]. by rewrite IH.
Qed.

Lemma for_each_ext (f g : A → S → result S) (l : list A) (s : S) :
  (∀ x s', x ∈ l → f x s' = g x s') → for_each f l s = for_each g l s.
Proof.
  revert s. induction l as [|x l IH]; intros s H; [done|]. cbn [for_each].
  rewrite (H x s) by left. destruct (g x s); run_result; [|done].
  apply IH. intros y s' Hy. apply H. by right.
Qed.

Lemma for_each_app (f : A → S → result S) (l1 l2 : list A) (s : S) :
  for_each f (l1 ++ l2) s = s' ← for_each f l1 s; for_each f l2 s'.
Proof.
  revert s. induction l1 as [|x l1 IH]; intros s; [done|].
  cbn [app for_each]. destruct (f x s); run_result; auto.
Qed.

Lemma for_each_singleton (f : A → S → result S) (x : A) (s : S) :
  for_each f [x] s = f x s.
Proof. cbn [for_each]. by destruct (f x s). Qed.

Lemma for_each_bind {C : Type} (f : A → S → result S) (g : C → list A)
    (l : list C) (s : S) :
  for_each f (l ≫= g) s = for_each (fun x s' => for_each f (g x) s') l s.
Proof.
  revert s. induction l as [|x l IH]; intros s; [done|].
  rewrite bind_cons, for_each_app. cbn [for_each].
  destruct (for_each f (g x) s); run_result; auto.
Qed.

End Loops.

(** Both searches are one loop over [triples]. *)
Lemma find_one_set_flat (cards : list Card) :
  find_one_set cards =
  first_hit (hit (test_at cards)) (triples (length cards)).
Proof.
  unfold find_one_set, triples. rewrite first_hit_bind.
  apply first_hit_ext. intros i _. rewrite first_hit_bind.
  apply first_hit_ext. intros j _. rewrite first_hit_bind.
  apply first_hit_ext. intros k _. by rewrite first_hit_singleton.
Qed.

Lemma find_all_sets_flat (cards : list Card) :
  find_all_sets cards =
  for_each (collect (test_at cards)) (triples (length cards)) [].
Proof.
  unfold find_all_sets, triples. rewrite for_each_bind.
  apply for_each_ext. intros i s1 _. rewrite for_each_bind.
  apply for_each_ext. intros j s2 _. rewrite for_each_bind.
  apply for_each_ext. intros k s3 _. by rewrite for_each_singleton.
Qed.

Section Scan.

Variable test : triple → result bool.

Lemma first_hit_cons (x : triple) (ts : list triple) :
  first_hit (hit test) (x :: ts) =
  match test x with
  | Ok true => Ok (Some x)
  | Ok false => first_hit (hit test) ts
  | Raise e => Raise e
  end.
Proof. cbn [first_hit]. unfold hit. by destruct (test x) as [[|]|e]. Qed.

Lemma for_each_cons (x : triple) (ts acc : list triple) :
  for_each (collect test) (x :: ts) acc =
  match test x with
  | Ok true => for_each (collect test) ts (acc ++ [x])
  | Ok false => for_each (collect test) ts acc
  | Raise e => Raise e
  end.
Proof. cbn [for_each]. unfold collect. by destruct (test x) as [[|]|e]. Qed.

Lemma first_hit_Some (ts : list triple) (t : triple) :
  first_hit (hit test) ts = Ok (Some t) ↔
  ∃ pre post, ts = pre ++ t :: post ∧
              Forall (fun t' => test t' = Ok false) pre ∧ test t = Ok true.
Proof.
  induction ts as [|x ts IH].
  - split; [done|]. intros (pre & post & H & _). by destruct pre.
  - rewrite first_hit_cons.
    destruct (test x) as [[|]|e] eqn:E.
    + split.
      * intros [= <-]. exists [], ts. by repeat split.
      * intros (pre & post & H & Hpre & Ht). destruct pre as [|y pre].
        -- by injection H as -> _.
        -- injection H as -> _. apply Forall_cons in Hpre as [Hx _]. congruence.
    + rewrite IH. split.
      * intros (pre & post & -> & Hpre & Ht). exists (x :: pre), post.
        repeat split; [by constructor|done].
      * intros (pre & post & H & Hpre & Ht). destruct pre as [|y pre].
        -- injection H as -> _. congruence.
        -- injection H as -> ->. apply Forall_cons in Hpre as [_ Hpre]. eauto.
    + split; [done|].
      intros (pre & post & H & Hpre & Ht). destruct pre as [|y pre].
      * injection H as -> _. congruence.
      * injection H as -> _. apply Forall_cons in Hpre as [Hx _]. congruence.
Qed.

Lemma first_hit_None (ts : list triple) :
  first_hit (hit test) ts = Ok None ↔ Forall (fun t => test t = Ok false) ts.
Proof.
  induction ts as [|x ts IH]; [by split; [constructor|]|].
  rewrite first_hit_cons, Forall_cons.
  destruct (test x) as [[|]|e] eqn:E.
  - split; [done|]. intros [? _]. congruence.
  - rewrite IH. tauto.
  - split; [done|]. intros [? _]. congruence.
Qed.

Lemma for_each_collect (ts acc sets : list triple) :
  for_each (collect test) ts acc = Ok sets ↔
  Forall (fun t => ∃ b, test t = Ok b) ts ∧
  sets = acc ++ filter (fun t => test t = Ok true) ts.
Proof.
  revert acc. induction ts as [|x ts IH]; intros acc.
  - cbn [for_each]. rewrite filter_nil, app_nil_r. split.
    + intros [= ->]. by split; [constructor|].
    + by intros [_ ->].
  - rewrite for_each_cons, Forall_cons.
    destruct (test x) as [[|]|e] eqn:E.
    + rewrite IH, filter_cons_True, <- app_assoc by done. cbn [app].
      split; [intros [? ?]; eauto|tauto].
    + rewrite IH, filter_cons_False by congruence.
      split; [intros [? ?]; eauto|tauto].
    + split; [done|]. intros [[[b Hb] _] _]. congruence.
Qed.

Lemma filter_first (ts sets : list triple) (t : triple) :
  filter (fun t' => test t' = Ok true) ts = t :: sets →
  Forall (fun t' => ∃ b, test t' = Ok b) ts →
  ∃ pre post, ts = pre ++ t :: post ∧
              Forall (fun t' => test t' = Ok false) pre ∧ test t = Ok true.
Proof.
  induction ts as [|x ts IH]; [done|].
  rewrite Forall_cons. intros Hf [[b Hb] Hts]. destruct b.
  - rewrite filter_cons_True in Hf by done. injection Hf as -> _.
    exists [], ts. by repeat split.
  - rewrite filter_cons_False in Hf by congruence.
    destruct (IH Hf Hts) as (pre & post & -> & Hpre & Ht).
    exists (x :: pre), post. repeat split; [by constructor|done].
Qed.

Lemma filter_none (ts : list triple) :
  Forall (fun t => test t = Ok false) ts ↔
  Forall (fun t => ∃ b, test t = Ok b) ts ∧
  filter (fun t => test t = Ok true) ts = [].
Proof.
  induction ts as [|x ts IH]; [by repeat split; try constructor|].
  rewrite !Forall_cons, IH. split.
  - intros [Hx [Hts Hf]]. repeat split; eauto.
    by rewrite filter_cons_False by congruence.
  - intros [[[b Hb] Hts] Hf]. destruct b.
    + by rewrite filter_cons_True in Hf.
    + rewrite filter_cons_False in Hf by congruence. tauto.
Qed.

(** The first hit is the head of the collection, on any list of index
    triples. *)
Lemma first_hit_head (ts sets : list triple) :
  for_each (collect test) ts [] = Ok sets →
  first_hit (hit test) ts = Ok (head sets).
Proof.
  intros H. apply for_each_collect in H as [Hok ->]. cbn [app].
  destruct (filter _ ts) as [|t sets] eqn:Hf; cbn [head].
  - apply first_hit_None, filter_none. auto.
  - apply first_hit_Some. by eapply filter_first.
Qed.

Lemma first_hit_None_collect (ts : list triple) :
  first_hit (hit test) ts = Ok None ↔ for_each (collect test) ts [] = Ok [].
Proof.
  rewrite first_hit_None, for_each_collect, filter_none. cbn [app].
  intuition congruence.
Qed.

End Scan.

(** *** The order of the scan *)

Lemma triples_increasing (n : nat) (t : triple) :
  t ∈ triples n ↔ increasing n t.
Proof.
  destruct t as [[i j] k]. unfold triples, increasing, range.
  repeat setoid_rewrite list_elem_of_bind.
  setoid_rewrite list_elem_of_singleton. setoid_rewrite elem_of_seq.
  split.
  - intros (i' & (j' & (k' & [= -> -> ->] & Hk) & Hj) & Hi). lia.
  - intros (Hij & Hjk & Hkn). exists i. split; [|lia].
    exists j. split; [|lia]. exists k. split; [done|lia].
Qed.

Lemma StronglySorted_bind {A B : Type} (R' : relation A) (R : relation B)
    (f : A → list B) (l : list A) :
  StronglySorted R' l →
  (∀ x, x ∈ l → StronglySorted R (f x)) →
  (∀ x y a b, R' x y → a ∈ f x → b ∈ f y → R a b) →
  StronglySorted R (l ≫= f).
Proof.
  intros Hl Hf HR. induction Hl as [|x l Hl IH Hx]; [constructor|].
  rewrite bind_cons. apply StronglySorted_app_2.
  - intros a b Ha Hb. apply list_elem_of_bind in Hb as (y & Hb & Hy).
    rewrite Forall_forall in Hx. eauto.
  - apply Hf. by left.
  - apply IH. intros y Hy. apply Hf. by right.
Qed.

Lemma seq_sorted (a n : nat) : StronglySorted lt (seq a n).
Proof.
  revert a. induction n as [|n IH]; intros a; cbn [seq]; constructor; [done|].
  apply Forall_forall. intros x Hx. apply elem_of_seq in Hx. lia.
Qed.

Lemma triples_sorted (n : nat) : StronglySorted lex_lt (triples n).
Proof.
  unfold triples, range.
  apply (StronglySorted_bind lt); [apply seq_sorted| |].
  - intros i _. apply (StronglySorted_bind lt); [apply seq_sorted| |].
    + intros j _. apply (StronglySorted_bind lt); [apply seq_sorted| |].
      * intros k _. repeat constructor.
      * intros k k' a b Hk ->%list_elem_of_singleton ->%list_elem_of_singleton.
        unfold lex_lt. lia.
    + intros j j' a b Hj (k & ->%list_elem_of_singleton & _)%list_elem_of_bind
        (k' & ->%list_elem_of_singleton & _)%list_elem_of_bind.
      unfold lex_lt. lia.
  - intros i i' a b Hi
      (j & (k & ->%list_elem_of_singleton & _)%list_elem_of_bind & _)%list_elem_of_bind
      (j' & (k' & ->%list_elem_of_singleton & _)%list_elem_of_bind & _)%list_elem_of_bind.
    unfold lex_lt. lia.
Qed.

Lemma lex_lt_asym (t t' : triple) : lex_lt t t' → lex_lt t' t → False.
Proof. destruct t as [[i j] k], t' as [[i' j'] k']. unfold lex_lt. lia. Qed.

Lemma lex_lt_irrefl (t : triple) : ¬ lex_lt t t.
Proof. intros H. exact (lex_lt_asym t t H H). Qed.

(** *** Totality on cards that have a vector *)

Lemma is_set_total (a b c : Card) :
  (∃ v, as_vector a = Ok v) → (∃ v, as_vector b = Ok v) →
  (∃ v, as_vector c = Ok v) → ∃ r, is_set a b c = Ok r.
Proof.
  intros [va Ha] [vb Hb] [vc Hc].
  rewrite (is_set_vectors a b c va vb vc Ha Hb Hc). eauto.
Qed.

Lemma test_at_total (cards : list Card) (t : triple) :
  (∀ c, c ∈ cards → ∃ v, as_vector c = Ok v) →
  increasing (length cards) t → ∃ b, test_at cards t = Ok b.
Proof.
  destruct t as [[i j] k]. intros Hv (Hij & Hjk & Hk).
  unfold test_at, is_set_at, list_get.
  destruct (lookup_lt_is_Some_2 cards i ltac:(lia)) as [ci Hi].
  destruct (lookup_lt_is_Some_2 cards j ltac:(lia)) as [cj Hj].
  destruct (lookup_lt_is_Some_2 cards k ltac:(lia)) as [ck Hk'].
  rewrite Hi, Hj, Hk'. run_result.
  apply is_set_total; eauto using list_elem_of_lookup_2.
Qed.

Lemma triples_total (cards : list Card) :
  (∀ c, c ∈ cards → ∃ v, as_vector c = Ok v) →
  Forall (fun t => ∃ b, test_at cards t = Ok b) (triples (length cards)).
Proof.
  intros Hv. apply Forall_forall. intros t Ht.
  apply test_at_total; [done|]. by apply triples_increasing.
Qed.

Lemma find_all_sets_total (cards : list Card) :
  (∀ c, c ∈ cards → ∃ v, as_vector c = Ok v) →
  ∃ sets, find_all_sets cards = Ok sets.
Proof.
  intros Hv. rewrite find_all_sets_flat. eexists.
  apply for_each_collect. split; [by apply triples_total|done].
Qed.

(** C10: when [find_all_sets] returns a non-empty list, [find_one_set]
    returns its first element; [find_one_set] returns [None] exactly when
    [find_all_sets] returns the empty list; and on cards that have a
    vector both return, [find_one_set] with the head of the other's list. *)
Theorem find_one_set_head_of_find_all_sets (cards : list Card) :
  (∀ t sets, find_all_sets cards = Ok (t :: sets) →
             find_one_set cards = Ok (Some t)) ∧
  (find_one_set cards = Ok None ↔ find_all_sets cards = Ok []) ∧
  ((∀ c, c ∈ cards → ∃ v, as_vector c = Ok v) →
   ∃ sets, find_all_sets cards = Ok sets ∧
           find_one_set cards = Ok (head sets)).
Proof.
  rewrite find_one_set_flat, find_all_sets_flat. repeat split.
  - intros t sets H. by apply first_hit_head in H.
  - by apply first_hit_None_collect.
  - by apply first_hit_None_collect.
  - intros Hv. destruct (find_all_sets_total cards Hv) as [sets Hs].
    rewrite find_all_sets_flat in Hs. exists sets. split; [done|].
    by apply first_hit_head.
Qed.

Lemma first_hit_total (test : triple → result bool) (ts : list triple) :
  Forall (fun t => ∃ b, test t = Ok b) ts → ∃ r, first_hit (hit test) ts = Ok r.
Proof.
  induction 1 as [|x ts [[|] Hb] _ IH]; [by eexists| |];
    rewrite first_hit_cons, Hb; eauto.
Qed.

Lemma no_increasing_triple (n : nat) (t : triple) :
  n < 3 → ¬ increasing n t.
Proof. destruct t as [[i j] k]. unfold increasing. lia. Qed.

(** C4: [find_one_set] returns the triple [t] exactly when [t] is an
    increasing index triple that passes the test and every increasing triple
    before it in lexicographic order fails it; it returns [None] exactly
    when every increasing triple fails the test; on fewer than three cards
    it returns [None]; and on cards that have a vector it returns. *)
Theorem find_one_set_first_in_order (cards : list Card) :
  (∀ t, find_one_set cards = Ok (Some t) ↔
        increasing (length cards) t ∧ test_at cards t = Ok true ∧
        ∀ t', increasing (length cards) t' → lex_lt t' t →
              test_at cards t' = Ok false) ∧
  (find_one_set cards = Ok None ↔
   ∀ t, increasing (length cards) t → test_at cards t = Ok false) ∧
  (length cards < 3 → find_one_set cards = Ok None) ∧
  ((∀ c, c ∈ cards → ∃ v, as_vector c = Ok v) →
   ∃ r, find_one_set cards = Ok r).
Proof.
  rewrite find_one_set_flat.
  assert (first_hit (hit (test_at cards)) (triples (length cards)) = Ok None ↔
          ∀ t, increasing (length cards) t → test_at cards t = Ok false) as HNone.
  { rewrite first_hit_None, Forall_forall.
    by setoid_rewrite triples_increasing. }
  split; [|split; [done|split]].
  - intros t. rewrite first_hit_Some. split.
    + intros (pre & post & Hsplit & Hpre & Ht).
      pose proof (triples_sorted (length cards)) as Hsorted.
      rewrite Hsplit in Hsorted. split; [|split; [done|]].
      * apply triples_increasing. rewrite Hsplit.
        apply elem_of_app. right. by left.
      * intros t' Hinc Hlt. apply triples_increasing in Hinc.
        rewrite Hsplit in Hinc.
        apply elem_of_app in Hinc as [Hin | Hin].
        { rewrite Forall_forall in Hpre. auto. }
        apply elem_of_cons in Hin as [-> | Hin].
        { by apply lex_lt_irrefl in Hlt. }
        apply StronglySorted_app_1_r, StronglySorted_cons in Hsorted as [Hpost _].
        rewrite Forall_forall in Hpost. destruct (lex_lt_asym t t'); auto.
    + intros (Hinc & Ht & Hmin). apply triples_increasing in Hinc.
      destruct (list_elem_of_split _ _ Hinc) as (pre & post & Hsplit).
      exists pre, post. split; [done|]. split; [|done].
      apply Forall_forall. intros t' Ht'.
      pose proof (triples_sorted (length cards)) as Hsorted.
      rewrite Hsplit in Hsorted. apply Hmin.
      * apply triples_increasing. rewrite Hsplit.
        apply elem_of_app. by left.
      * apply (StronglySorted_app_1_elem_of _ _ _ _ _ Hsorted Ht'). by left.
  - intros Hlen. apply HNone. intros t Ht.
    by apply no_increasing_triple in Ht.
  - intros Hv. by apply first_hit_total, triples_total.
Qed.

(** ** Replacement *)

(** One index: the slot receives the front card of the deck, or [None]
    when the deck is empty. *)
Lemma replace_step_ok (idx : nat) (displayed : board) (deck : list Card) :
  idx < length displayed →
  replace_step idx (displayed, deck) =
  Ok (<[idx := deck !! 0]> displayed, drop 1 deck).
Proof.
  intros Hidx. unfold replace_step, list_set.
  destruct deck as [|card deck]; rewrite decide_True by done; by run_result.
Qed.

Lemma replace_step_out_of_range (idx : nat) (displayed : board) (deck : list Card) :
  length displayed ≤ idx → replace_step idx (displayed, deck) = Raise IndexError.
Proof.
  intros Hidx. unfold replace_step, list_set.
  destruct deck as [|card deck]; rewrite decide_False by lia; by run_result.
Qed.

Lemma replace_cards_returns (indices : list nat) (displayed : board)
    (deck : list Card) :
  (∀ idx, idx ∈ indices → idx < length displayed) →
  ∃ displayed',
    replace_cards indices (displayed, deck) =
    Ok (displayed', drop (length indices) deck).
Proof.
  unfold replace_cards.
  revert displayed deck. induction indices as [|i indices IH];
    intros displayed deck Hrange.
  - exists displayed. cbn [for_each length]. by rewrite drop_0.
  - cbn [for_each]. rewrite replace_step_ok by (apply Hrange; by left).
    run_result.
    destruct (IH (<[i := deck !! 0]> displayed) (drop 1 deck))
      as (displayed' & Hrun).
    { intros idx Hidx. rewrite length_insert. apply Hrange. by right. }
    exists displayed'. by rewrite Hrun, drop_drop.
Qed.

(** C3: on board indices, [replace_cards] returns; it leaves the deck
    without its first [length indices] cards and the slots outside
    [indices] as they were; and the slot whose last occurrence in [indices]
    is at position [p] holds the [p]-th card of the deck, or [None] when
    the deck has no such card. *)
Theorem replace_cards_in_order (indices : list nat) (displayed : board)
    (deck : list Card) :
  (∀ idx, idx ∈ indices → idx < length displayed) →
  ∃ displayed',
    replace_cards indices (displayed, deck) =
      Ok (displayed', drop (length indices) deck) ∧
    length displayed' = length displayed ∧
    (∀ slot, slot ∉ indices → displayed' !! slot = displayed !! slot) ∧
    (∀ p idx, indices !! p = Some idx →
              (∀ q, p < q → indices !! q ≠ Some idx) →
              displayed' !! idx = Some (deck !! p)).
Proof.
  unfold replace_cards.
  revert displayed deck. induction indices as [|i indices IH];
    intros displayed deck Hrange.
  - exists displayed. cbn [for_each length]. rewrite drop_0.
    repeat split; done.
  - cbn [for_each]. rewrite replace_step_ok by (apply Hrange; by left).
    run_result.
    destruct (IH (<[i := deck !! 0]> displayed) (drop 1 deck))
      as (displayed' & Hrun & Hlen & Hout & Hin).
    { intros idx Hidx. rewrite length_insert. apply Hrange. by right. }
    exists displayed'. rewrite Hrun, drop_drop, length_insert in *.
    repeat split; try done.
    + intros slot Hslot. apply not_elem_of_cons in Hslot as [Hne Hslot].
      rewrite (Hout slot Hslot). by apply list_lookup_insert_ne.
    + intros [|p] idx Hp Hlast.
      * injection Hp as ->. rewrite Hout.
        { apply list_lookup_insert_eq. apply Hrange. by left. }
        intros (q & Hq)%list_elem_of_lookup_1. apply (Hlast (S q)); [lia|done].
      * rewrite (Hin p idx Hp).
        { by rewrite lookup_drop. }
        intros q Hq. apply (Hlast (S q)). lia.
Qed.

Lemma replace_cards_in_order_witness :
  ∃ displayed',
    replace_cards [0; 1; 2] (displayed_cards dealt_game, take 1 kaarten_cards) =
      Ok (displayed', drop (length [0; 1; 2]) (take 1 kaarten_cards)) ∧
    length displayed' = length (displayed_cards dealt_game) ∧
    (∀ slot, slot ∉ [0; 1; 2] →
             displayed' !! slot = displayed_cards dealt_game !! slot) ∧
    (∀ p idx, [0; 1; 2] !! p = Some idx →
              (∀ q, p < q → [0; 1; 2] !! q ≠ Some idx) →
              displayed' !! idx = Some (take 1 kaarten_cards !! p)).
Proof.
  apply (replace_cards_in_order [0; 1; 2] (displayed_cards dealt_game)
           (take 1 kaarten_cards)).
  apply Forall_forall. repeat constructor; vm_compute; lia.
Defined.

(** The scenario of one card left in the deck: slot 0 takes it, slots 1
    and 2 become empty. *)
Lemma replace_cards_last_card (displayed : board) (last : Card) :
  3 ≤ length displayed →
  replace_cards [0; 1; 2] (displayed, [last]) =
  Ok (<[2 := None]> (<[1 := None]> (<[0 := Some last]> displayed)), []).
Proof.
  intros Hlen. unfold replace_cards. cbn [for_each].
  rewrite replace_step_ok by lia. run_result.
  rewrite replace_step_ok by (rewrite length_insert; lia). run_result.
  rewrite replace_step_ok by (rewrite !length_insert; lia). by run_result.
Qed.

(** ** Deck construction *)

Lemma load_cards_decoded (card_files : list string) (acc : list Card) :
  Forall (fun f => is_Some (decode_attributes f)) card_files →
  ∃ cards,
    for_each (fun f cards => card ← from_filename f; mret (cards ++ [card]))
      card_files acc = Ok (acc ++ cards) ∧
    attributes <$> cards = omap decode_attributes card_files.
Proof.
  intros H. revert acc. induction H as [|f fs [t Ht] _ IH]; intros acc.
  - exists []. by rewrite app_nil_r.
  - cbn [for_each omap list_omap]. fold (omap decode_attributes fs).
    rewrite Ht. unfold decode_attributes in Ht.
    destruct (from_filename f) as [c|e]; [|done]. injection Ht as <-. run_result.
    destruct (IH (acc ++ [c])) as (cards & -> & Hattr).
    exists (c :: cards). rewrite <- app_assoc, fmap_cons, Hattr. done.
Qed.

Lemma kaarten_combinations : omap decode_attributes kaarten = combinations.
Proof. vm_compute. reflexivity. Qed.

Lemma kaarten_decode (f : string) : f ∈ kaarten → is_Some (decode_attributes f).
Proof.
  intros Hf.
  assert (forallb (fun f => bool_decide (is_Some (decode_attributes f))) kaarten
          = true) as Hall by (vm_compute; reflexivity).
  rewrite forallb_forall in Hall. apply list_elem_of_In, Hall in Hf.
  by apply bool_decide_eq_true in Hf.
Qed.

Lemma combinations_NoDup : NoDup combinations.
Proof. apply (bool_decide_unpack _). vm_compute. exact I. Qed.

(** C9, as amended: when the [.gif] names of the folder are the 81 names of
    [kaarten], in any order and among any other files,
    [load_cards_from_folder] returns 81 cards, no two with the same four
    attributes, whose attributes are the combinations, none left out. *)
Theorem load_cards_from_folder_full (card_files : list string) :
  filter (fun f => endswith f ".gif" = true) card_files ≡ₚ kaarten →
  ∃ deck,
    load_cards_from_folder card_files = Ok deck ∧
    length deck = 81 ∧
    NoDup (attributes <$> deck) ∧
    (∀ t, t ∈ combinations ↔ ∃ c, c ∈ deck ∧ attributes c = t) ∧
    full_deck deck.
Proof.
  intros Hperm. unfold load_cards_from_folder.
  destruct (load_cards_decoded
              (filter (fun f => endswith f ".gif" = true) card_files) [])
    as (deck & -> & Hattr).
  { apply Forall_forall. intros f Hf. apply kaarten_decode. by rewrite <- Hperm. }
  assert (full_deck deck) as Hfull.
  { unfold full_deck. by rewrite Hattr, Hperm, kaarten_combinations. }
  exists deck. cbn [app]. split; [done|].
  unfold full_deck in Hfull. repeat split; [| |intros Ht|intros Ht|done].
  - rewrite <- (length_fmap attributes), Hfull. reflexivity.
  - rewrite Hfull. apply combinations_NoDup.
  - rewrite <- Hfull in Ht. apply list_elem_of_fmap in Ht as (c & -> & Hc). eauto.
  - destruct Ht as (c & Hc & <-). rewrite <- Hfull. by apply list_elem_of_fmap_2.
Qed.

Lemma load_cards_from_folder_full_witness :
  ∃ deck,
    load_cards_from_folder ("Thumbs.db" :: kaarten) = Ok deck ∧
    length deck = 81 ∧
    NoDup (attributes <$> deck) ∧
    (∀ t, t ∈ combinations ↔ ∃ c, c ∈ deck ∧ attributes c = t) ∧
    full_deck deck.
Proof.
  apply (load_cards_from_folder_full ("Thumbs.db" :: kaarten)).
  vm_compute. reflexivity.
Defined.

(** C9, as stated, fails: the loader checks neither the number of files nor
    their names.  On a folder of two images whose names decode to the same
    attributes it returns a deck of two cards that share all four. *)
Lemma load_cards_from_folder_two_files :
  load_cards_from_folder ["redovalempty1.gif"; "redxovalempty1.gif"] =
    Ok [mkCard "red" "oval" "empty" 1 "redovalempty1.gif";
        mkCard "red" "oval" "empty" 1 "redxovalempty1.gif"] ∧
  length [mkCard "red" "oval" "empty" 1 "redovalempty1.gif";
          mkCard "red" "oval" "empty" 1 "redxovalempty1.gif"] ≠ 81 ∧
  ¬ NoDup (attributes <$> [mkCard "red" "oval" "empty" 1 "redovalempty1.gif";
                           mkCard "red" "oval" "empty" 1 "redxovalempty1.gif"]).
Proof.
  split; [vm_compute; reflexivity|]. split; [cbn; lia|].
  intros Hnd. apply NoDup_cons in Hnd as [Hnotin _]. apply Hnotin. by left.
Qed.

(** On other folders the loader returns other decks, or raises. *)
Lemma load_cards_from_folder_other_folders :
  load_cards_from_folder [] = Ok [] ∧
  load_cards_from_folder ["redovalstriped7.gif"] =
    Ok [mkCard "red" "oval" "striped" 7 "redovalstriped7.gif"] ∧
  load_cards_from_folder ["blueoval1.gif"] = Raise KeyError ∧
  load_cards_from_folder ["red.gif"] = Raise IndexError.
Proof. repeat split; vm_compute; reflexivity. Qed.

(** ** The playing branch *)

Lemma cards_on_elem (displayed : board) (c : Card) :
  c ∈ cards_on displayed ↔ Some c ∈ displayed.
Proof.
  unfold cards_on. rewrite list_elem_of_omap. split.
  - intros (o & Ho & Hid). unfold id in Hid. by subst.
  - intros H. by exists (Some c).
Qed.

Lemma cards_on_length (displayed : board) :
  length (cards_on displayed) ≤ length displayed.
Proof.
  unfold cards_on. induction displayed as [|[c|] l IH]; cbn; lia.
Qed.

(** On a board with no empty slot the list of its cards has the board's
    indices: there the indices [find_one_set] returns are board indices. *)
Lemma cards_on_full (displayed : board) :
  Forall is_Some displayed → Some <$> cards_on displayed = displayed.
Proof.
  unfold cards_on. induction 1 as [|o l [c ->] _ IH]; [done|].
  cbn. by rewrite IH.
Qed.

Lemma find_one_set_total (cards : list Card) :
  (∀ c, c ∈ cards → ∃ v, as_vector c = Ok v) → ∃ r, find_one_set cards = Ok r.
Proof.
  intros Hv. rewrite find_one_set_flat. by apply first_hit_total, triples_total.
Qed.

Lemma find_one_set_increasing (cards : list Card) (t : triple) :
  find_one_set cards = Ok (Some t) → increasing (length cards) t.
Proof.
  rewrite find_one_set_flat, first_hit_Some.
  intros (pre & post & Hsplit & _). apply triples_increasing.
  rewrite Hsplit. apply elem_of_app. right. by left.
Qed.

Lemma replace_cards_members (indices : list nat) (displayed displayed' : board)
    (deck deck' : list Card) :
  replace_cards indices (displayed, deck) = Ok (displayed', deck') →
  (∀ c, Some c ∈ displayed' → Some c ∈ displayed ∨ c ∈ deck) ∧
  (∀ c, c ∈ deck' → c ∈ deck).
Proof.
  unfold replace_cards. revert displayed deck.
  induction indices as [|i indices IH]; intros displayed deck.
  - cbn [for_each]. intros [= <- <-]. auto.
  - cbn [for_each]. destruct (decide (i < length displayed)) as [Hi|Hi].
    + rewrite replace_step_ok by done. run_result. intros Hrun.
      destruct (IH _ _ Hrun) as [Hboard Hdeck]. split.
      * intros c Hc. destruct (Hboard c Hc) as [Hin | Hin].
        -- apply list_elem_of_lookup_1 in Hin as [j Hj].
           apply list_lookup_insert_Some in Hj as [(_ & Hd & _) | [_ Hj]].
           ++ right. by apply list_elem_of_lookup_2 in Hd.
           ++ left. by apply list_elem_of_lookup_2 in Hj.
        -- right. apply list_elem_of_lookup_1 in Hin as [j Hj].
           rewrite lookup_drop in Hj. by apply list_elem_of_lookup_2 in Hj.
      * intros c Hc. apply Hdeck in Hc.
        apply list_elem_of_lookup_1 in Hc as [j Hj].
        rewrite lookup_drop in Hj. by apply list_elem_of_lookup_2 in Hj.
    + rewrite replace_step_out_of_range by lia. by run_result.
Qed.

Lemma replace_cards_valid (indices : list nat) (displayed displayed' : board)
    (deck deck' : list Card) :
  replace_cards indices (displayed, deck) = Ok (displayed', deck') →
  cards_valid displayed deck → cards_valid displayed' deck'.
Proof.
  intros Hrun [Hb Hd].
  destruct (replace_cards_members _ _ _ _ _ Hrun) as [Hb' Hd'].
  split; intros c Hc.
  - destruct (Hb' c Hc); auto.
  - auto.
Qed.

(** The end check returns on a valid board, and moves to [End] exactly
    when no set is left on the board and the deck is empty. *)
Lemma end_check_run (g : Game) :
  cards_valid (displayed_cards g) (remaining_deck g) →
  ∃ sets,
    find_all_sets (cards_on (displayed_cards g)) = Ok sets ∧
    end_check g =
    Ok (if bool_decide (sets = []) && bool_decide (remaining_deck g = [])
        then with_game_state End g else g).
Proof.
  intros [Hb _].
  destruct (find_all_sets_total (cards_on (displayed_cards g))) as [sets Hs].
  { intros c Hc. apply Hb. by apply cards_on_elem. }
  exists sets. split; [done|]. unfold end_check. rewrite Hs. run_result.
  by destruct (_ && _).
Qed.

Lemma end_check_playing (g : Game) :
  game_state g = Playing →
  cards_valid (displayed_cards g) (remaining_deck g) →
  ∃ g',
    end_check g = Ok g' ∧
    displayed_cards g' = displayed_cards g ∧
    remaining_deck g' = remaining_deck g ∧
    selected_cards g' = selected_cards g ∧
    player_score g' = player_score g ∧
    computer_score g' = computer_score g ∧
    timer g' = timer g ∧
    home_timer g' = home_timer g ∧
    (game_state g' = End ↔
     find_all_sets (cards_on (displayed_cards g)) = Ok [] ∧ remaining_deck g = []) ∧
    (game_state g' ≠ End → game_state g' = Playing).
Proof.
  intros Hplay Hvalid. destruct (end_check_run g Hvalid) as (sets & Hs & ->).
  eexists. split; [done|]. rewrite Hs.
  destruct (bool_decide (sets = [])) eqn:E1;
    destruct (bool_decide (remaining_deck g = [])) eqn:E2; cbn [andb];
    try apply bool_decide_eq_true in E1; try apply bool_decide_eq_true in E2;
    try apply bool_decide_eq_false in E1; try apply bool_decide_eq_false in E2;
    cbn [with_game_state game_state displayed_cards remaining_deck
         selected_cards player_score computer_score timer home_timer];
    repeat split; try done; try congruence.
  all: rewrite Hplay; try done; intros [? ?]; congruence.
Qed.

(** *** The tick *)

Lemma on_tick_counting (g : Game) :
  (0 < timer g - 1)%Z →
  ∃ g1, on_tick g = Ok g1 ∧
        game_state g1 = game_state g ∧
        selected_cards g1 = selected_cards g ∧
        timer g1 = (timer g - 1)%Z ∧
        displayed_cards g1 = displayed_cards g ∧
        remaining_deck g1 = remaining_deck g ∧
        player_score g1 = player_score g ∧
        computer_score g1 = computer_score g ∧
        home_timer g1 = home_timer g.
Proof.
  intros Ht. unfold on_tick.
  destruct (Z.leb_spec (timer g - 1) 0) as [?|_]; [lia|].
  eexists. split; [reflexivity|]. by cbn.
Qed.

(** What the expired timer does: the indices [find_one_set] returns for
    the list of the cards on the board are passed to [replace_cards] as
    they are. *)
Lemma on_tick_expired (g : Game) :
  (timer g - 1 ≤ 0)%Z →
  3 ≤ length (displayed_cards g) →
  cards_valid (displayed_cards g) (remaining_deck g) →
  ∃ g1 found,
    on_tick g = Ok g1 ∧
    find_one_set (cards_on (displayed_cards g)) = Ok found ∧
    replace_cards
      match found with Some (i, j, k) => [i; j; k] | None => [0; 1; 2] end
      (displayed_cards g, remaining_deck g) =
      Ok (displayed_cards g1, remaining_deck g1) ∧
    computer_score g1 =
      (computer_score g + match found with Some _ => 1 | None => 0 end)%Z ∧
    timer g1 = home_timer g ∧
    game_state g1 = game_state g ∧
    selected_cards g1 = selected_cards g ∧
    player_score g1 = player_score g ∧
    home_timer g1 = home_timer g.
Proof.
  intros Ht Hlen Hvalid. unfold on_tick.
  destruct (Z.leb_spec (timer g - 1) 0) as [_|?]; [|lia].
  destruct (find_one_set_total (cards_on (displayed_cards g))) as [found Hfound].
  { intros c Hc. apply (proj1 Hvalid). by apply cards_on_elem. }
  rewrite Hfound. run_result.
  pose proof (cards_on_length (displayed_cards g)) as Hon.
  destruct found as [[[i j] k]|].
  - apply find_one_set_increasing in Hfound as Hinc. destruct Hinc as (Hij & Hjk & Hk).
    destruct (replace_cards_returns [i; j; k] (displayed_cards g) (remaining_deck g))
      as (displayed' & Hrun).
    { intros idx Hidx. repeat apply elem_of_cons in Hidx as [-> | Hidx]; try lia.
      inversion Hidx. }
    rewrite Hrun. run_result. eexists _, (Some (i, j, k)).
    split; [reflexivity|]. fields. by rewrite Hrun.
  - destruct (replace_cards_returns [0; 1; 2] (displayed_cards g) (remaining_deck g))
      as (displayed' & Hrun).
    { intros idx Hidx. repeat apply elem_of_cons in Hidx as [-> | Hidx]; try lia.
      inversion Hidx. }
    rewrite Hrun. run_result. eexists _, None.
    split; [reflexivity|]. fields. rewrite Hrun. repeat split; try done. lia.
Qed.

Lemma on_tick_run (g : Game) :
  3 ≤ length (displayed_cards g) →
  cards_valid (displayed_cards g) (remaining_deck g) →
  ∃ g1, on_tick g = Ok g1 ∧
        game_state g1 = game_state g ∧
        cards_valid (displayed_cards g1) (remaining_deck g1).
Proof.
  intros Hlen Hvalid. destruct (Z.lt_ge_cases 0 (timer g - 1)) as [Ht | Ht].
  - destruct (on_tick_counting g Ht) as (g1 & Hrun & Hs & _ & _ & Hb & Hd & _).
    exists g1. by rewrite Hb, Hd.
  - destruct (on_tick_expired g Ht Hlen Hvalid)
      as (g1 & found & Hrun & _ & Hrep & _ & _ & Hs & _).
    exists g1. repeat split; try done; by eapply replace_cards_valid.
Qed.

(** *** The click *)

Lemma list_remove_first_elem (x i : nat) (l : list nat) :
  i ∈ list_remove_first x l → i ∈ l.
Proof.
  induction l as [|y l IH]; [done|]. cbn [list_remove_first].
  destruct (decide (y = x)) as [->|Hne].
  - by right.
  - intros [-> | Hi]%elem_of_cons; [by left|]. right. auto.
Qed.

Lemma list_remove_first_other (x i : nat) (l : list nat) :
  i ≠ x → i ∈ l → i ∈ list_remove_first x l.
Proof.
  intros Hne. induction l as [|y l IH]; [done|]. cbn [list_remove_first].
  intros [-> | Hi]%elem_of_cons.
  - rewrite decide_False by done. by left.
  - destruct (decide (y = x)); [done|]. right. auto.
Qed.

Lemma list_remove_first_gone (x : nat) (l : list nat) :
  NoDup l → x ∉ list_remove_first x l.
Proof.
  induction 1 as [|y l Hy Hl IH]; cbn [list_remove_first]; [by intros ?%elem_of_nil|].
  destruct (decide (y = x)) as [->|Hne]; [done|].
  intros [-> | Hx]%elem_of_cons; [done|]. by apply IH.
Qed.

Lemma toggle_absent (idx : nat) (selected : list nat) :
  idx ∉ selected → toggle idx selected = selected ++ [idx].
Proof. intros H. unfold toggle. by rewrite bool_decide_eq_false_2. Qed.

Lemma toggle_present (idx : nat) (selected : list nat) :
  NoDup selected → idx ∈ selected →
  (idx ∉ toggle idx selected) ∧
  (∀ i, i ≠ idx → (i ∈ toggle idx selected ↔ i ∈ selected)).
Proof.
  intros Hnd H. unfold toggle. rewrite bool_decide_eq_true_2 by done. split.
  - by apply list_remove_first_gone.
  - intros i Hi. split; [apply list_remove_first_elem|].
    by apply list_remove_first_other.
Qed.

Lemma toggle_elem (idx i : nat) (selected : list nat) :
  i ∈ toggle idx selected → i = idx ∨ i ∈ selected.
Proof.
  unfold toggle. destruct (bool_decide _).
  - intros ?%list_remove_first_elem. by right.
  - intros [? | ->%list_elem_of_singleton]%elem_of_app; auto.
Qed.

Lemma click_hits_card (displayed : board) (ci : Z) :
  click_hits displayed ci = true →
  ∃ c, displayed !! Z.to_nat ci = Some (Some c).
Proof.
  unfold click_hits. rewrite !andb_true_iff. intros [_ H].
  destruct (displayed !! Z.to_nat ci) as [[c|]|]; eauto; done.
Qed.

(** The cards read for a selection of three slots that hold cards. *)
Lemma selected_three (displayed : board) (selected : list nat) :
  length selected = 3 → selection_on_cards displayed selected →
  ∃ i1 i2 i3 c1 c2 c3,
    selected = [i1; i2; i3] ∧
    displayed !! i1 = Some (Some c1) ∧
    displayed !! i2 = Some (Some c2) ∧
    displayed !! i3 = Some (Some c3) ∧
    for_each (fun i cards => card ← list_get displayed i; mret (cards ++ [card]))
      selected [] = Ok [Some c1; Some c2; Some c3].
Proof.
  intros Hlen Hsel.
  destruct selected as [|i1 [|i2 [|i3 [|]]]]; try done.
  destruct (Hsel i1) as [c1 H1]; [set_solver|].
  destruct (Hsel i2) as [c2 H2]; [set_solver|].
  destruct (Hsel i3) as [c3 H3]; [set_solver|].
  exists i1, i2, i3, c1, c2, c3. repeat split; try done.
  cbn [for_each]. unfold list_get. rewrite H1, H2, H3. by run_result.
Qed.

Lemma on_click_run (x y : Z) (g : Game) :
  cards_valid (displayed_cards g) (remaining_deck g) →
  selection_on_cards (displayed_cards g) (selected_cards g) →
  ∃ g2,
    on_click x y g = Ok g2 ∧
    game_state g2 = game_state g ∧
    cards_valid (displayed_cards g2) (remaining_deck g2) ∧
    (click_hits (displayed_cards g) (clicked_index x y) = false →
     selected_cards g2 = selected_cards g ∧ same_table g g2) ∧
    (click_hits (displayed_cards g) (clicked_index x y) = true →
     let selected := toggle (Z.to_nat (clicked_index x y)) (selected_cards g) in
     (length selected ≠ 3 → selected_cards g2 = selected ∧ same_table g g2) ∧
     (length selected = 3 →
      selected_cards g2 = [] ∧
      ∃ i1 i2 i3 c1 c2 c3 valid,
        selected = [i1; i2; i3] ∧
        displayed_cards g !! i1 = Some (Some c1) ∧
        displayed_cards g !! i2 = Some (Some c2) ∧
        displayed_cards g !! i3 = Some (Some c3) ∧
        is_set c1 c2 c3 = Ok valid ∧
        (valid = true →
         player_score g2 = (player_score g + 1)%Z ∧
         timer g2 = home_timer g ∧
         replace_cards selected (displayed_cards g, remaining_deck g) =
           Ok (displayed_cards g2, remaining_deck g2) ∧
         computer_score g2 = computer_score g ∧
         home_timer g2 = home_timer g) ∧
        (valid = false → same_table g g2))).
Proof.
  intros Hvalid Hsel. unfold on_click.
  destruct (click_hits _ _) eqn:Hhit; cycle 1.
  { exists g. split; [done|]. split; [done|]. split; [done|].
    split; [intros _|intros ?; done]. split; [done|].
    unfold same_table. by repeat split. }
  set (selected := toggle _ _).
  assert (selection_on_cards (displayed_cards g) selected) as Hsel'.
  { intros i [-> | Hi]%toggle_elem; [|by apply Hsel].
    by apply click_hits_card. }
  destruct (Nat.eqb_spec (length selected) 3) as [Hlen | Hlen]; cycle 1.
  { eexists. split; [reflexivity|]. fields.
    split; [done|]. split; [done|].
    split; [intros ?; done|intros _]. split; [intros _|intros ?; done].
    split; [done|]. unfold same_table. fields. by repeat split. }
  destruct (selected_three _ _ Hlen Hsel')
    as (i1 & i2 & i3 & c1 & c2 & c3 & Heq & H1 & H2 & H3 & Hread).
  rewrite Hread. run_result.
  destruct (is_set_total c1 c2 c3) as [valid Hset];
    try (apply (proj1 Hvalid); by eapply list_elem_of_lookup_2).
  change (is_set_star [Some c1; Some c2; Some c3]) with (is_set c1 c2 c3).
  rewrite Hset. run_result. destruct valid.
  - destruct (replace_cards_returns selected (displayed_cards g) (remaining_deck g))
      as (displayed' & Hrun).
    { intros idx Hidx. destruct (Hsel' idx Hidx) as [c Hc].
      by apply lookup_lt_Some in Hc. }
    rewrite Hrun. run_result. eexists. split; [reflexivity|]. fields.
    split; [done|]. split; [by eapply replace_cards_valid|].
    split; [intros ?; done|intros _]. split; [intros ?; done|intros _].
    split; [done|].
    exists i1, i2, i3, c1, c2, c3, true. repeat split; done.
  - eexists. split; [reflexivity|]. fields.
    split; [done|]. split; [done|].
    split; [intros ?; done|intros _]. split; [intros ?; done|intros _].
    split; [done|].
    exists i1, i2, i3, c1, c2, c3, false. repeat split; done.
Qed.

(** *** One event in the playing state *)

Lemma on_tick_state (g g1 : Game) :
  on_tick g = Ok g1 → game_state g1 = game_state g.
Proof.
  unfold on_tick. destruct (_ <=? _)%Z; [|by intros [= <-]].
  destruct (find_one_set _) as [[[[i j] k]|]|e]; run_result; [| |done];
    destruct (replace_cards _ _) as [[d r]|e]; run_result; try done;
    by intros [= <-].
Qed.

Lemma is_set_obj_Ok (o1 o2 o3 : option Card) (valid : bool) :
  is_set_obj o1 o2 o3 = Ok valid →
  ∃ c1 c2 c3, o1 = Some c1 ∧ o2 = Some c2 ∧ o3 = Some c3 ∧
              is_set c1 c2 c3 = Ok valid.
Proof.
  unfold is_set_obj, obj_as_vector.
  destruct o1 as [c1|], o2 as [c2|], o3 as [c3|];
    try (intros H; by exists c1, c2, c3);
    try destruct (as_vector c1); try destruct (as_vector c2); by run_result.
Qed.

(** What a click has done when its handler returns. *)
Lemma on_click_outcome (x y : Z) (g g2 : Game) :
  on_click x y g = Ok g2 →
  game_state g2 = game_state g ∧
  (click_hits (displayed_cards g) (clicked_index x y) = false →
   selected_cards g2 = selected_cards g ∧ same_table g g2) ∧
  (click_hits (displayed_cards g) (clicked_index x y) = true →
   let selected := toggle (Z.to_nat (clicked_index x y)) (selected_cards g) in
   (length selected ≠ 3 → selected_cards g2 = selected ∧ same_table g g2) ∧
   (length selected = 3 →
    selected_cards g2 = [] ∧
    ∃ i1 i2 i3 c1 c2 c3 valid,
      selected = [i1; i2; i3] ∧
      displayed_cards g !! i1 = Some (Some c1) ∧
      displayed_cards g !! i2 = Some (Some c2) ∧
      displayed_cards g !! i3 = Some (Some c3) ∧
      is_set c1 c2 c3 = Ok valid ∧
      (valid = true →
       player_score g2 = (player_score g + 1)%Z ∧
       timer g2 = home_timer g ∧
       replace_cards selected (displayed_cards g, remaining_deck g) =
         Ok (displayed_cards g2, remaining_deck g2) ∧
       computer_score g2 = computer_score g ∧
       home_timer g2 = home_timer g) ∧
      (valid = false → same_table g g2))).
Proof.
  unfold on_click. destruct (click_hits _ _) eqn:Hhit; cycle 1.
  { intros [= <-]. split; [done|]. split; [intros _|intros ?; done].
    split; [done|]. unfold same_table. by repeat split. }
  destruct (Nat.eqb_spec
              (length (toggle (Z.to_nat (clicked_index x y)) (selected_cards g))) 3)
    as [Hlen | Hlen]; cycle 1.
  { intros [= <-]. fields. split; [done|].
    split; [intros ?; done|intros _]. split; [intros _|intros ?; done].
    split; [done|]. unfold same_table. fields. by repeat split. }
  destruct (toggle _ _) as [|i1 [|i2 [|i3 [|]]]] eqn:Hsel; try done.
  cbn [for_each]. unfold list_get.
  destruct (displayed_cards g !! i1) as [o1|] eqn:H1; run_result; [|done].
  destruct (displayed_cards g !! i2) as [o2|] eqn:H2; run_result; [|done].
  destruct (displayed_cards g !! i3) as [o3|] eqn:H3; run_result; [|done].
  cbn [app is_set_star].
  destruct (is_set_obj o1 o2 o3) as [valid|e] eqn:Hset; run_result; [|done].
  apply is_set_obj_Ok in Hset as (c1 & c2 & c3 & -> & -> & -> & Hset).
  destruct valid.
  - destruct (replace_cards _ _) as [[d r]|e] eqn:Hrun; run_result; [|done].
    intros [= <-]. fields. split; [done|].
    split; [intros ?; done|intros _]. split; [intros ?; done|intros _].
    split; [done|]. exists i1, i2, i3, c1, c2, c3, true. repeat split; done.
  - intros [= <-]. fields. split; [done|].
    split; [intros ?; done|intros _]. split; [intros ?; done|intros _].
    split; [done|]. exists i1, i2, i3, c1, c2, c3, false. repeat split; done.
Qed.

Lemma end_check_cases (g g' : Game) :
  end_check g = Ok g' → g' = g ∨ g' = with_game_state End g.
Proof.
  unfold end_check. destruct (find_all_sets _) as [sets|e]; run_result; [|done].
  destruct (_ && _); run_result; intros [= <-]; auto.
Qed.

(** What the end check has done when it returns. *)
Lemma end_check_outcome (g g' : Game) :
  game_state g = Playing →
  end_check g = Ok g' →
  displayed_cards g' = displayed_cards g ∧
  remaining_deck g' = remaining_deck g ∧
  (game_state g' = End ↔
   find_all_sets (cards_on (displayed_cards g)) = Ok [] ∧ remaining_deck g = []) ∧
  (game_state g' ≠ End → game_state g' = Playing).
Proof.
  intros Hplay. unfold end_check.
  destruct (find_all_sets _) as [sets|e]; run_result; [|done].
  destruct (bool_decide (sets = [])) eqn:E1;
    destruct (bool_decide (remaining_deck g = [])) eqn:E2; cbn [andb];
    try apply bool_decide_eq_true in E1; try apply bool_decide_eq_true in E2;
    try apply bool_decide_eq_false in E1; try apply bool_decide_eq_false in E2;
    intros [= <-]; fields; repeat split; try done; try congruence.
  all: rewrite Hplay; try done; intros [? ?]; congruence.
Qed.

(** Of the two [if]s on the event type at most one runs. *)
Lemma playing_event_branch (ev : Event) (g : Game) :
  playing_event ev g =
  match ev with
  | USEREVENT => on_tick g
  | MOUSEBUTTONDOWN x y => on_click x y g
  | _ => Ok g
  end ≫= end_check.
Proof.
  unfold playing_event. destruct ev as [| |x y|]; run_result; try done.
Qed.

(** An event in the playing state on a valid table is handled without an
    exception. *)
Lemma playing_event_total (ev : Event) (g : Game) :
  game_state g = Playing →
  3 ≤ length (displayed_cards g) →
  cards_valid (displayed_cards g) (remaining_deck g) →
  selection_on_cards (displayed_cards g) (selected_cards g) →
  ∃ g', playing_event ev g = Ok g'.
Proof.
  intros Hplay Hlen Hvalid Hsel. rewrite playing_event_branch.
  assert (∃ g2, match ev with
                | USEREVENT => on_tick g
                | MOUSEBUTTONDOWN x y => on_click x y g
                | _ => Ok g
                end = Ok g2 ∧
                game_state g2 = Playing ∧
                cards_valid (displayed_cards g2) (remaining_deck g2))
    as (g2 & -> & Hplay2 & Hvalid2).
  { destruct ev as [| |x y|].
    - by exists g.
    - destruct (on_tick_run g Hlen Hvalid) as (g1 & -> & Hs & Hv).
      exists g1. by rewrite Hs.
    - destruct (on_click_run x y g Hvalid Hsel) as (g1 & -> & Hs & Hv & _).
      exists g1. by rewrite Hs.
    - by exists g. }
  run_result.
  destruct (end_check_playing g2 Hplay2 Hvalid2) as (g' & Hend & _). eauto.
Qed.

(** C5: whenever the handler of a tick, a click or any other event in the
    playing state returns, the state it leaves is [End] exactly when
    [find_all_sets] on the cards then on the board returns the empty list
    and the deck is then empty, and it is still [Playing] otherwise; and on
    a valid table the handler returns. *)
Theorem end_check_after_every_event (shuffled : list Card) (ev : Event) (g : Game) :
  game_state g = Playing →
  ev ≠ QUIT →
  (∀ g', handle_event shuffled ev g = Ok g' →
         (game_state g' = End ↔
          find_all_sets (cards_on (displayed_cards g')) = Ok [] ∧
          remaining_deck g' = []) ∧
         (game_state g' ≠ End → game_state g' = Playing)) ∧
  (3 ≤ length (displayed_cards g) →
   cards_valid (displayed_cards g) (remaining_deck g) →
   selection_on_cards (displayed_cards g) (selected_cards g) →
   ∃ g', handle_event shuffled ev g = Ok g').
Proof.
  intros Hplay Hev. unfold handle_event. rewrite Hplay. split.
  - intros g'. rewrite playing_event_branch.
    intros (g2 & Hbranch & Hend)%bind_Ok_inv.
    assert (game_state g2 = Playing) as Hplay2.
    { destruct ev as [| |x y|]; [done| | |].
      - apply on_tick_state in Hbranch. congruence.
      - apply on_click_outcome in Hbranch as [Hs _]. congruence.
      - by injection Hbranch as <-. }
    destruct (end_check_outcome g2 g' Hplay2 Hend) as (Hb & Hd & Hiff & Hstay).
    by rewrite Hb, Hd.
  - by apply playing_event_total.
Qed.

(** The click in the playing state, with no index twice in the selection:
    whenever its handler returns it has done the following.  A
    click that hits no card leaves selection, board, deck, scores and timer
    as they were.  A click on a slot that holds a card toggles its index in
    the selection: removed when present, appended when absent.  When the
    toggled selection has three indices it is evaluated at once and the
    selection is left empty: if [is_set] accepts the three selected cards
    the player's score grows by one, the three slots are passed to
    [replace_cards] and the timer is set to [home_timer]; if not, the table
    stays as it was.  Otherwise the toggled selection is kept and the table
    stays as it was.  And on a valid table whose selected slots hold cards
    the handler returns. *)
Lemma click_toggles_and_evaluates (shuffled : list Card) (x y : Z) (g : Game) :
  game_state g = Playing →
  NoDup (selected_cards g) →
  (∀ g',
    handle_event shuffled (MOUSEBUTTONDOWN x y) g = Ok g' →
    (click_hits (displayed_cards g) (clicked_index x y) = false →
     selected_cards g' = selected_cards g ∧ same_table g g') ∧
    (click_hits (displayed_cards g) (clicked_index x y) = true →
     let idx := Z.to_nat (clicked_index x y) in
     let selected := toggle idx (selected_cards g) in
     (∃ c, displayed_cards g !! idx = Some (Some c)) ∧
     (idx ∈ selected_cards g →
      (idx ∉ selected) ∧
      (∀ i, i ≠ idx → (i ∈ selected ↔ i ∈ selected_cards g))) ∧
     (idx ∉ selected_cards g → selected = selected_cards g ++ [idx]) ∧
     (length selected ≠ 3 → selected_cards g' = selected ∧ same_table g g') ∧
     (length selected = 3 →
      selected_cards g' = [] ∧
      ∃ i1 i2 i3 c1 c2 c3 valid,
        selected = [i1; i2; i3] ∧
        displayed_cards g !! i1 = Some (Some c1) ∧
        displayed_cards g !! i2 = Some (Some c2) ∧
        displayed_cards g !! i3 = Some (Some c3) ∧
        is_set c1 c2 c3 = Ok valid ∧
        (valid = true →
         player_score g' = (player_score g + 1)%Z ∧
         timer g' = home_timer g ∧
         replace_cards selected (displayed_cards g, remaining_deck g) =
           Ok (displayed_cards g', remaining_deck g') ∧
         computer_score g' = computer_score g ∧
         home_timer g' = home_timer g) ∧
        (valid = false → same_table g g')))) ∧
  (3 ≤ length (displayed_cards g) →
   cards_valid (displayed_cards g) (remaining_deck g) →
   selection_on_cards (displayed_cards g) (selected_cards g) →
   ∃ g', handle_event shuffled (MOUSEBUTTONDOWN x y) g = Ok g').
Proof.
  intros Hplay Hnd. unfold handle_event. rewrite Hplay. split.
  - intros g'. rewrite playing_event_branch.
    intros (g2 & Hclick & Hend)%bind_Ok_inv.
    apply on_click_outcome in Hclick as (Hs & Hmiss & Hhit).
    assert (∀ P : Game → Prop, P g2 → P (with_game_state End g2) → P g')
      as Hcases.
    { intros P H2 HE. by destruct (end_check_cases g2 g' Hend) as [-> | ->]. }
    split.
    + intros Hh. apply Hcases; by apply Hmiss.
    + intros Hh. cbv zeta in *. specialize (Hhit Hh).
      destruct Hhit as [Hkeep Heval].
      split; [by apply click_hits_card|].
      split; [by apply toggle_present|].
      split; [by apply toggle_absent|].
      split.
      * intros Hlen. apply Hcases; by apply Hkeep.
      * intros Hlen. apply Hcases; by apply Heval.
  - by apply playing_event_total.
Qed.

(** *** Instances on the dealt table *)

Lemma cards_valid_check (displayed : board) (deck : list Card) :
  all_have_vector (cards_on displayed ++ deck) = true → cards_valid displayed deck.
Proof.
  unfold all_have_vector. rewrite forallb_forall. intros H.
  split; intros c Hc; unfold has_vector;
    (specialize (H c); destruct (as_vector c) as [v|e]; [by eexists|]);
    discriminate H; apply list_elem_of_In, elem_of_app.
  - left. by apply cards_on_elem.
  - by right.
Qed.

Lemma dealt_game_valid :
  cards_valid (displayed_cards dealt_game) (remaining_deck dealt_game).
Proof. apply cards_valid_check. vm_compute. reflexivity. Defined.

Lemma dealt_game_selection :
  selection_on_cards (displayed_cards dealt_game) (selected_cards dealt_game).
Proof. intros i Hi. vm_compute in Hi. inversion Hi. Defined.

(** The first tick on the dealt table: it is handled, and the game goes
    on. *)
Lemma end_check_after_every_event_witness :
  ∃ g',
    handle_event kaarten_cards USEREVENT dealt_game = Ok g' ∧
    (game_state g' = End ↔
     find_all_sets (cards_on (displayed_cards g')) = Ok [] ∧
     remaining_deck g' = []) ∧
    (game_state g' ≠ End → game_state g' = Playing).
Proof.
  destruct (end_check_after_every_event kaarten_cards USEREVENT dealt_game)
    as [Houtcome Hreturns].
  - reflexivity.
  - discriminate.
  - destruct Hreturns as [g' Hg'].
    + vm_compute. lia.
    + exact dealt_game_valid.
    + exact dealt_game_selection.
    + exists g'. split; [exact Hg'|]. exact (Houtcome g' Hg').
Defined.

(** The first click on the dealt table, on the second slot of the first
    row: it is handled, slot 1 is selected and the table stays as it
    was. *)
Lemma click_on_dealt_table :
  ∃ g',
    handle_event kaarten_cards (MOUSEBUTTONDOWN 260 10) dealt_game = Ok g' ∧
    selected_cards g' = [1] ∧
    same_table dealt_game g'.
Proof.
  destruct (click_toggles_and_evaluates kaarten_cards 260 10 dealt_game)
    as [Houtcome Hreturns].
  - reflexivity.
  - vm_compute. constructor.
  - destruct Hreturns as [g' Hg'].
    + vm_compute. lia.
    + exact dealt_game_valid.
    + exact dealt_game_selection.
    + exists g'. split; [exact Hg'|].
      destruct (Houtcome g' Hg') as [_ Hhit].
      destruct Hhit as (_ & _ & _ & Hkeep & _); [vm_compute; reflexivity|].
      apply Hkeep. vm_compute. discriminate.
Defined.

(** ** The expired timer on a board with empty slots *)

(** C2: 24 seconds into a game with one-second rounds on the unshuffled
    deck, the deck is empty, slots 0 to 2 of the board are empty and the
    three cards [find_one_set] finds, at indices 0, 1, 2 of the list of
    cards on the board, sit in slots 3, 4, 5.  The next tick adds one to the
    computer's score, resets the timer and passes 0, 1, 2 to
    [replace_cards]: the board is left as it was, the found cards stay in
    their slots, and every further tick scores on them again. *)
Theorem tick_replaces_indices_of_filtered_list :
  game_after 24 = Ok (game_at 24) ∧
  game_state (game_at 24) = Playing ∧
  timer (game_at 24) = 1%Z ∧
  remaining_deck (game_at 24) = [] ∧
  take 3 (displayed_cards (game_at 24)) = [None; None; None] ∧
  find_one_set (cards_on (displayed_cards (game_at 24))) = Ok (Some (0, 1, 2)) ∧
  Some <$> take 3 (cards_on (displayed_cards (game_at 24))) =
    take 3 (drop 3 (displayed_cards (game_at 24))) ∧
  handle_event kaarten_cards USEREVENT (game_at 24) = Ok (game_at 25) ∧
  computer_score (game_at 25) = (computer_score (game_at 24) + 1)%Z ∧
  timer (game_at 25) = home_timer (game_at 24) ∧
  displayed_cards (game_at 25) = displayed_cards (game_at 24) ∧
  game_state (game_at 25) = Playing ∧
  game_after 40 = Ok (game_at 40) ∧
  computer_score (game_at 40) = 40%Z ∧
  displayed_cards (game_at 40) = displayed_cards (game_at 24) ∧
  game_state (game_at 40) = Playing.
Proof.
  split; [vm_compute; reflexivity|].
  split; [vm_compute; reflexivity|].
  split; [vm_compute; reflexivity|].
  split; [vm_compute; reflexivity|].
  split; [vm_compute; reflexivity|].
  split; [vm_compute; reflexivity|].
  split; [vm_compute; reflexivity|].
  split; [vm_compute; reflexivity|].
  split; [vm_compute; reflexivity|].
  split; [vm_compute; reflexivity|].
  split; [vm_compute; reflexivity|].
  split; [vm_compute; reflexivity|].
  split; [vm_compute; reflexivity|].
  split; [vm_compute; reflexivity|].
  split; vm_compute; reflexivity.
Qed.

(** ** The third pick on a selection with an emptied slot *)

(** C6: the player picks slot 0 after the deal and slot 3 after 24 seconds
    of one-second rounds.  By then the computer has emptied slot 0, the
    deck being empty, and the selection still holds index 0.  The pick of
    slot 4, which holds a card, brings the selection to three indices; the
    evaluation reads [None] for slot 0 and the handler raises
    [AttributeError]: nothing is evaluated and the selection is not
    cleared. *)
Theorem third_pick_on_emptied_slot_raises :
  run kaarten_cards two_picks (initial_game kaarten_cards) =
    Ok game_after_two_picks ∧
  game_state game_after_two_picks = Playing ∧
  selected_cards game_after_two_picks = [0; 3] ∧
  displayed_cards game_after_two_picks !! 0 = Some None ∧
  click_hits (displayed_cards game_after_two_picks) (clicked_index 10 210) = true ∧
  toggle (Z.to_nat (clicked_index 10 210)) (selected_cards game_after_two_picks) =
    [0; 3; 4] ∧
  handle_event kaarten_cards pick_slot_4 game_after_two_picks =
    Raise AttributeError.
Proof.
  split; [vm_compute; reflexivity|].
  split; [vm_compute; reflexivity|].
  split; [vm_compute; reflexivity|].
  split; [vm_compute; reflexivity|].
  split; [vm_compute; reflexivity|].
  split; vm_compute; reflexivity.
Qed.

(** * Further properties *)

(** ** [find_all_sets] *)

Lemma StronglySorted_filter {A : Type} (R : relation A) (P : A → Prop)
    `{∀ x, Decision (P x)} (l : list A) :
  StronglySorted R l → StronglySorted R (filter P l).
Proof.
  induction 1 as [|x l Hl IH Hx]; [constructor|].
  destruct (decide (P x)) as [HP|HP].
  - rewrite filter_cons_True by done. constructor; [done|].
    apply Forall_forall. intros y [_ Hy]%list_elem_of_filter.
    rewrite Forall_forall in Hx. auto.
  - by rewrite filter_cons_False.
Qed.

Lemma StronglySorted_NoDup {A : Type} (R : relation A) (l : list A) :
  (∀ x, ¬ R x x) → StronglySorted R l → NoDup l.
Proof.
  intros Hirr. induction 1 as [|x l Hl IH Hx]; constructor; [|done].
  intros Hin. rewrite Forall_forall in Hx. by apply (Hirr x), Hx.
Qed.

(** X1: the list [find_all_sets] returns holds exactly the increasing index
    triples that pass [is_set], each once, in lexicographic order. *)
Theorem find_all_sets_exact (cards : list Card) (sets : list triple) :
  find_all_sets cards = Ok sets →
  (∀ t, t ∈ sets ↔ increasing (length cards) t ∧ test_at cards t = Ok true) ∧
  StronglySorted lex_lt sets ∧
  NoDup sets.
Proof.
  rewrite find_all_sets_flat. intros [_ ->]%for_each_collect. cbn [app].
  assert (StronglySorted lex_lt
            (filter (fun t => test_at cards t = Ok true) (triples (length cards))))
    as Hsorted by apply StronglySorted_filter, triples_sorted.
  split; [|split; [done|]].
  - intros t. rewrite list_elem_of_filter, triples_increasing. tauto.
  - by apply (StronglySorted_NoDup lex_lt); [apply lex_lt_irrefl|].
Qed.

Lemma find_all_sets_exact_witness :
  (∀ t, t ∈ [(0, 1, 2); (3, 4, 5)] ↔
        increasing (length (take 6 kaarten_cards)) t ∧
        test_at (take 6 kaarten_cards) t = Ok true) ∧
  StronglySorted lex_lt [(0, 1, 2); (3, 4, 5)] ∧
  NoDup [(0, 1, 2); (3, 4, 5)].
Proof.
  apply (find_all_sets_exact (take 6 kaarten_cards) [(0, 1, 2); (3, 4, 5)]).
  vm_compute. reflexivity.
Defined.

(** ** [as_vector] and degenerate triples *)

Lemma dict3_lookup {V : Type} (k1 k2 k3 s : string) (v1 v2 v3 v : V) :
  k1 ≠ k2 → k1 ≠ k3 → k2 ≠ k3 →
  ({[ k1 := v1; k2 := v2; k3 := v3 ]} : gmap string V) !! s = Some v ↔
  (s = k1 ∧ v = v1) ∨ (s = k2 ∧ v = v2) ∨ (s = k3 ∧ v = v3).
Proof.
  intros H12 H13 H23.
  rewrite !lookup_insert_Some, lookup_singleton_Some. split.
  - intros [[<- <-]|[? [[<- <-]|[? [<- <-]]]]]; auto.
  - intros [[-> ->]|[[-> ->]|[-> ->]]]; auto 10.
Qed.

Lemma dict3_get {V : Type} (k1 k2 k3 s : string) (v1 v2 v3 : V) :
  k1 ≠ k2 → k1 ≠ k3 → k2 ≠ k3 →
  (∃ v, dict_get ({[ k1 := v1; k2 := v2; k3 := v3 ]} : gmap string V) s = Ok v) ↔
  s ∈ [k1; k2; k3].
Proof.
  intros H12 H13 H23. unfold dict_get. split.
  - intros [v Hv].
    destruct (_ !! s) as [v'|] eqn:E; [|done].
    apply dict3_lookup in E as [[-> _]|[[-> _]|[-> _]]]; try done;
      repeat first [by left | right].
  - intros Hs.
    assert (s = k1 ∨ s = k2 ∨ s = k3) as Hc.
    { repeat apply elem_of_cons in Hs as [Hs|Hs]; auto. inversion Hs. }
    assert (∃ v, ({[ k1 := v1; k2 := v2; k3 := v3 ]} : gmap string V) !! s = Some v)
      as [v Hv].
    { destruct Hc as [-> | [-> | ->]]; eexists; apply dict3_lookup; eauto. }
    rewrite Hv. eauto.
Qed.

(** X2: [as_vector] returns exactly on the cards whose color, symbol and
    shading are among the known names; the number is not checked.  The
    first three components of the vector then lie between 0 and 2 and the
    fourth is the number minus one. *)
Theorem as_vector_defined (c : Card) :
  ((∃ v, as_vector c = Ok v) ↔
   color c ∈ ["red"; "green"; "purple"] ∧
   symbol c ∈ ["diamond"; "squiggle"; "oval"] ∧
   shading c ∈ ["empty"; "filled"; "shaded"]) ∧
  (∀ x y z w, as_vector c = Ok (x, y, z, w) →
     is_digit x = true ∧ is_digit y = true ∧ is_digit z = true ∧
     w = (number c - 1)%Z).
Proof.
  unfold as_vector, colors, symbols, shadings. split.
  - rewrite <- (dict3_get "red" "green" "purple" (color c) 0%Z 1%Z 2%Z) by done.
    rewrite <- (dict3_get "diamond" "squiggle" "oval" (symbol c) 0%Z 1%Z 2%Z) by done.
    rewrite <- (dict3_get "empty" "filled" "shaded" (shading c) 0%Z 1%Z 2%Z) by done.
    split.
    + intros [v Hv].
      destruct (dict_get _ (color c)) as [x|]; run_result; [|done].
      destruct (dict_get _ (symbol c)) as [y|]; run_result; [|done].
      destruct (dict_get _ (shading c)) as [z|]; run_result; [|done].
      repeat split; eauto.
    + intros ([x ->] & [y ->] & [z ->]). run_result. eauto.
  - intros x y z w. unfold dict_get.
    destruct (_ !! color c) as [x'|] eqn:Ex; run_result; [|done].
    destruct (_ !! symbol c) as [y'|] eqn:Ey; run_result; [|done].
    destruct (_ !! shading c) as [z'|] eqn:Ez; run_result; [|done].
    intros [= -> -> -> <-].
    apply dict3_lookup in Ex, Ey, Ez; try done.
    destruct Ex as [[_ ->]|[[_ ->]|[_ ->]]], Ey as [[_ ->]|[[_ ->]|[_ ->]]],
      Ez as [[_ ->]|[[_ ->]|[_ ->]]]; done.
Qed.

(** X3: the vector keeps the four attributes: two cards with the same
    vector have the same color, symbol, shading and number. *)
Theorem as_vector_inj (a b : Card) (v : vector) :
  as_vector a = Ok v → as_vector b = Ok v → attributes a = attributes b.
Proof.
  unfold as_vector, colors, symbols, shadings, dict_get, attributes.
  destruct (_ !! color a) as [xa|] eqn:Exa; run_result; [|done].
  destruct (_ !! symbol a) as [ya|] eqn:Eya; run_result; [|done].
  destruct (_ !! shading a) as [za|] eqn:Eza; run_result; [|done].
  destruct (_ !! color b) as [xb|] eqn:Exb; run_result; [|done].
  destruct (_ !! symbol b) as [yb|] eqn:Eyb; run_result; [|done].
  destruct (_ !! shading b) as [zb|] eqn:Ezb; run_result; [|done].
  intros <- [= -> -> -> Hn].
  apply dict3_lookup in Exa, Eya, Eza, Exb, Eyb, Ezb; try done.
  assert (number a = number b) as -> by lia.
  destruct Exa as [[-> ?]|[[-> ?]|[-> ?]]], Exb as [[-> ?]|[[-> ?]|[-> ?]]];
    try congruence;
    destruct Eya as [[-> ?]|[[-> ?]|[-> ?]]], Eyb as [[-> ?]|[[-> ?]|[-> ?]]];
    try congruence;
    destruct Eza as [[-> ?]|[[-> ?]|[-> ?]]], Ezb as [[-> ?]|[[-> ?]|[-> ?]]];
    congruence.
Qed.

Lemma as_vector_inj_witness :
  attributes (mkCard "red" "oval" "empty" 1 "redovalempty1.gif") =
  attributes (mkCard "red" "oval" "empty" 1 "copy.gif").
Proof.
  apply (as_vector_inj _ _ (0, 2, 0, 0)%Z); vm_compute; reflexivity.
Defined.

Lemma distinct_count_twice (x y : Z) :
  (distinct_count [x; x; y] = 1 ∨ distinct_count [x; x; y] = 3) ↔ x = y.
Proof.
  unfold distinct_count. cbn [remove_dups].
  destruct (decide_rel _ x [x; y]) as [_|Hn]; [|exfalso; apply Hn; by left].
  destruct (decide_rel _ x [y]) as [->%list_elem_of_singleton|Hn].
  - destruct (decide_rel _ y []) as [H%elem_of_nil|_]; [done|]. cbn. tauto.
  - destruct (decide_rel _ y []) as [H%elem_of_nil|_]; [done|]. cbn.
    split; [lia|]. intros ->. exfalso. apply Hn. by left.
Qed.

(** X4: a card taken twice forms a set with a third card exactly when the
    third card has the same vector; in particular a card taken three times
    passes the test. *)
Theorem is_set_same_card_twice (a b : Card) (va vb : vector) :
  as_vector a = Ok va → as_vector b = Ok vb →
  (is_set a a b = Ok true ↔ va = vb) ∧ is_set a a a = Ok true.
Proof.
  intros Ha Hb.
  assert (∀ v, is_set_loop [va; va; v] (range 0 4) = true ↔ va = v) as Hloop.
  { intros v. rewrite is_set_loop_true.
    destruct va as [[[xa ya] za] wa], v as [[[x y] z] w]. split.
    - intros H.
      pose proof (H 0 ltac:(by vm_compute; left)) as H0.
      pose proof (H 1 ltac:(by vm_compute; right; left)) as H1.
      pose proof (H 2 ltac:(by vm_compute; right; right; left)) as H2.
      pose proof (H 3 ltac:(by vm_compute; right; right; right; left)) as H3.
      cbn [fmap list_fmap tuple_get] in H0, H1, H2, H3.
      apply distinct_count_twice in H0, H1, H2, H3. congruence.
    - intros [= -> -> -> ->] i Hi. unfold range in Hi. apply elem_of_seq in Hi.
      assert (i = 0 ∨ i = 1 ∨ i = 2 ∨ i = 3) as [-> | [-> | [-> | ->]]] by lia;
        cbn [fmap list_fmap tuple_get]; by apply distinct_count_twice. }
  rewrite (is_set_vectors a a b va va vb Ha Ha Hb).
  rewrite (is_set_vectors a a a va va va Ha Ha Ha). split.
  - rewrite <- Hloop. split; [congruence|by intros ->].
  - f_equal. by apply Hloop.
Qed.

Lemma is_set_same_card_twice_witness :
  (is_set (mkCard "red" "oval" "empty" 1 "redovalempty1.gif")
          (mkCard "red" "oval" "empty" 1 "redovalempty1.gif")
          (mkCard "green" "oval" "empty" 1 "greenovalempty1.gif") = Ok true ↔
   (0, 2, 0, 0)%Z = (1, 2, 0, 0)%Z) ∧
  is_set (mkCard "red" "oval" "empty" 1 "redovalempty1.gif")
         (mkCard "red" "oval" "empty" 1 "redovalempty1.gif")
         (mkCard "red" "oval" "empty" 1 "redovalempty1.gif") = Ok true.
Proof.
  apply (is_set_same_card_twice
           (mkCard "red" "oval" "empty" 1 "redovalempty1.gif")
           (mkCard "green" "oval" "empty" 1 "greenovalempty1.gif"));
    vm_compute; reflexivity.
Defined.

Lemma column_sum (x y z : Z) :
  is_digit x = true → is_digit y = true → is_digit z = true →
  (distinct_count [x; y; z] = 1 ∨ distinct_count [x; y; z] = 3) ↔
  ((x + y + z) mod 3 = 0)%Z.
Proof.
  intros Hx Hy Hz. apply is_digit_cases in Hx, Hy, Hz.
  destruct Hx as [-> | [-> | ->]], Hy as [-> | [-> | ->]],
    Hz as [-> | [-> | ->]]; vm_compute; intuition congruence.
Qed.

(** X5: on cards whose numbers are 1 to 3, [is_set] accepts exactly the
    triples whose vectors add up to a multiple of 3 at each of the four
    positions. *)
Theorem is_set_sum_mod_3 (a b c : Card) (va vb vc : vector) :
  as_vector a = Ok va → as_vector b = Ok vb → as_vector c = Ok vc →
  in_cube va = true → in_cube vb = true → in_cube vc = true →
  (is_set a b c = Ok true ↔
   ∀ i, i < 4 →
     ((tuple_get va i + tuple_get vb i + tuple_get vc i) mod 3 = 0)%Z).
Proof.
  intros Ha Hb Hc Hca Hcb Hcc.
  rewrite (is_set_vectors a b c va vb vc Ha Hb Hc).
  assert (∀ i, is_digit (tuple_get va i) = true ∧ is_digit (tuple_get vb i) = true ∧
               is_digit (tuple_get vc i) = true) as Hdig.
  { destruct va as [[[xa ya] za] wa], vb as [[[xb yb] zb] wb],
      vc as [[[xc yc] zc] wc].
    unfold in_cube in *. rewrite !andb_true_iff in *.
    intros [|[|[|i]]]; cbn [tuple_get]; tauto. }
  split.
  - intros H i Hi.
    assert (is_set_loop [va; vb; vc] (range 0 4) = true) as Hl by congruence.
    destruct (Hdig i) as (? & ? & ?). apply column_sum; try done.
    apply (proj1 (is_set_loop_true _ _) Hl i).
    unfold range. apply elem_of_seq. lia.
  - intros H. f_equal. apply is_set_loop_true. intros i Hi.
    unfold range in Hi. apply elem_of_seq in Hi.
    destruct (Hdig i) as (? & ? & ?).
    cbn [fmap list_fmap]. apply column_sum; try done. apply H. lia.
Qed.

Lemma is_set_sum_mod_3_witness :
  is_set (mkCard "red" "oval" "empty" 1 "redovalempty1.gif")
         (mkCard "green" "oval" "filled" 1 "greenovalfilled1.gif")
         (mkCard "purple" "oval" "shaded" 1 "purpleovalshaded1.gif") = Ok true ↔
  ∀ i, i < 4 →
    ((tuple_get (0, 2, 0, 0)%Z i + tuple_get (1, 2, 1, 0)%Z i +
      tuple_get (2, 2, 2, 0)%Z i) mod 3 = 0)%Z.
Proof.
  apply (is_set_sum_mod_3
           (mkCard "red" "oval" "empty" 1 "redovalempty1.gif")
           (mkCard "green" "oval" "filled" 1 "greenovalfilled1.gif")
           (mkCard "purple" "oval" "shaded" 1 "purpleovalshaded1.gif"));
    vm_compute; reflexivity.
Defined.

(** *** An unknown attribute in the list *)

Lemma test_at_Ok_or_KeyError (cards : list Card) (t : triple) :
  increasing (length cards) t →
  (∃ b, test_at cards t = Ok b) ∨ test_at cards t = Raise KeyError.
Proof.
  destruct t as [[i j] k]. intros (Hij & Hjk & Hk).
  unfold test_at, is_set_at, list_get.
  destruct (lookup_lt_is_Some_2 cards i ltac:(lia)) as [ci ->].
  destruct (lookup_lt_is_Some_2 cards j ltac:(lia)) as [cj ->].
  destruct (lookup_lt_is_Some_2 cards k ltac:(lia)) as [ck ->].
  run_result. unfold is_set.
  destruct (as_vector ci) as [vi|ei] eqn:Hi; run_result;
    [|apply as_vector_raises in Hi as ->; by right].
  destruct (as_vector cj) as [vj|ej] eqn:Hj; run_result;
    [|apply as_vector_raises in Hj as ->; by right].
  destruct (as_vector ck) as [vk|ek] eqn:Hk'; run_result;
    [|apply as_vector_raises in Hk' as ->; by right].
  left. eauto.
Qed.

Lemma test_at_Ok_vectors (cards : list Card) (i j k : nat) (b : bool) :
  test_at cards (i, j, k) = Ok b →
  ∀ p c, p ∈ [i; j; k] → cards !! p = Some c → has_vector c.
Proof.
  unfold test_at, is_set_at, list_get.
  destruct (cards !! i) as [ci|] eqn:Hi; run_result; [|done].
  destruct (cards !! j) as [cj|] eqn:Hj; run_result; [|done].
  destruct (cards !! k) as [ck|] eqn:Hk; run_result; [|done].
  intros (va & vb & vc & Ha & Hb & Hc & _)%is_set_Ok p c Hp Hlook.
  unfold has_vector.
  repeat apply elem_of_cons in Hp as [-> | Hp]; [| | |inversion Hp];
    rewrite Hlook in *; simplify_eq; eauto.
Qed.

Lemma for_each_collect_raises (test : triple → result bool)
    (ts acc : list triple) :
  Forall (fun t => (∃ b, test t = Ok b) ∨ test t = Raise KeyError) ts →
  Exists (fun t => test t = Raise KeyError) ts →
  for_each (collect test) ts acc = Raise KeyError.
Proof.
  intros Hall. revert acc. induction Hall as [|x ts Hx _ IH]; intros acc Hex.
  - inversion Hex.
  - rewrite for_each_cons. apply Exists_cons in Hex as [Hex | Hex].
    + by rewrite Hex.
    + destruct Hx as [[[|] ->] | ->]; auto.
Qed.

(** X6: on three cards or more, one of which has an unknown color, symbol
    or shading, [find_all_sets] raises [KeyError]. *)
Theorem find_all_sets_unknown_attribute (cards : list Card) (c : Card) :
  3 ≤ length cards → c ∈ cards → ¬ has_vector c →
  find_all_sets cards = Raise KeyError.
Proof.
  intros Hlen Hc Hbad. rewrite find_all_sets_flat.
  apply for_each_collect_raises.
  - apply Forall_forall. intros t Ht. apply test_at_Ok_or_KeyError.
    by apply triples_increasing.
  - apply list_elem_of_lookup_1 in Hc as [p Hp].
    pose proof (lookup_lt_Some _ _ _ Hp) as Hlt.
    set (t := if decide (p < 2) then (0, 1, 2) else (0, 1, p)).
    assert (increasing (length cards) t ∧ p ∈ [t.1.1; t.1.2; t.2]) as [Hinc Hin].
    { unfold t. destruct (decide (p < 2)); cbn; split; try lia.
      - destruct p as [|[|p]]; [by left|by right; left|lia].
      - by right; right; left. }
    apply Exists_exists. exists t. split; [by apply triples_increasing|].
    destruct (test_at_Ok_or_KeyError cards t Hinc) as [[b Hb]|?]; [|done].
    destruct t as [[i j] k]. exfalso. apply Hbad.
    by apply (test_at_Ok_vectors cards i j k b Hb p c).
Qed.

Lemma find_all_sets_unknown_attribute_witness :
  find_all_sets (take 3 kaarten_cards ++
                 [mkCard "red" "oval" "striped" 1 "redovalstriped1.gif"]) =
  Raise KeyError.
Proof.
  apply (find_all_sets_unknown_attribute _
           (mkCard "red" "oval" "striped" 1 "redovalstriped1.gif")).
  - vm_compute. lia.
  - apply (bool_decide_unpack _). vm_compute. exact I.
  - intros [v Hv]. vm_compute in Hv. discriminate Hv.
Defined.

(** ** Decoding file names *)

Lemma from_filename_parts (f : string) (c : Card) :
  from_filename f = Ok c →
  filename c = f ∧
  (∃ abbreviation, color_map !! abbreviation = Some (color c)) ∧
  symbol c =
    (if contains "squiggle" f then "squiggle"
     else if contains "oval" f then "oval" else "diamond") ∧
  (∃ digit, int_of_char digit = Ok (number c)).
Proof.
  unfold from_filename, dict_get. cbv zeta.
  destruct (list_get _ 0) as [part0|]; run_result; [|done].
  destruct (color_map !! _) as [col|] eqn:Hcol; run_result; [|done].
  destruct (list_get _ 1) as [part1|]; run_result; [|done].
  destruct (last_char part1) as [digit|]; run_result; [|done].
  destruct (int_of_char digit) as [n|] eqn:Hn; run_result; [|done].
  intros [= <-]. cbn [filename color symbol number]. eauto 10.
Qed.



(** X8: a name made of a color, a symbol, a shading, a digit and [.gif] is
    decoded to the card with that color, symbol, shading and number. *)
Theorem from_filename_card_name (c s h : string) (n : Z) :
  c ∈ ["red"; "green"; "purple"] →
  s ∈ ["diamond"; "squiggle"; "oval"] →
  h ∈ ["empty"; "filled"; "shaded"] →
  (0 ≤ n ≤ 9)%Z →
  from_filename (card_name c s h n) = Ok (mkCard c s h n (card_name c s h n)).
Proof.
  intros Hc Hs Hh Hn.
  assert (n = 0 ∨ n = 1 ∨ n = 2 ∨ n = 3 ∨ n = 4 ∨ n = 5 ∨ n = 6 ∨ n = 7 ∨
          n = 8 ∨ n = 9)%Z as Hn' by lia.
  repeat apply elem_of_cons in Hc as [-> | Hc]; [| | |inversion Hc];
    (repeat apply elem_of_cons in Hs as [-> | Hs]; [| | |inversion Hs]);
    (repeat apply elem_of_cons in Hh as [-> | Hh]; [| | |inversion Hh]);
    repeat (destruct Hn' as [-> | Hn']; [vm_compute; reflexivity|]);
    subst n; vm_compute; reflexivity.
Qed.

Lemma from_filename_card_name_witness :
  from_filename (card_name "purple" "squiggle" "shaded" 2) =
  Ok (mkCard "purple" "squiggle" "shaded" 2
        (card_name "purple" "squiggle" "shaded" 2)).
Proof.
  apply (from_filename_card_name "purple" "squiggle" "shaded" 2).
  - apply (bool_decide_unpack _). vm_compute. exact I.
  - apply (bool_decide_unpack _). vm_compute. exact I.
  - apply (bool_decide_unpack _). vm_compute. exact I.
  - lia.
Defined.

(** *** Names without a symbol word *)

Lemma append_nil_r (s : string) : s +:+ EmptyString = s.
Proof.
  induction s as [|ch s IH]; [done|].
  change (String ch s +:+ EmptyString) with (String ch (s +:+ EmptyString)).
  by rewrite IH.
Qed.

Lemma append_snoc (cur s : string) (ch : ascii) :
  (cur +:+ String ch EmptyString) +:+ s = cur +:+ String ch s.
Proof.
  induction cur as [|a cur IH]; [done|].
  change ((String a cur +:+ String ch EmptyString) +:+ s)
    with (String a ((cur +:+ String ch EmptyString) +:+ s)).
  by rewrite IH.
Qed.

Lemma prefix_substring (sub s : string) (n : nat) :
  String.prefix sub (substring 0 n s) = true → String.prefix sub s = true.
Proof.
  revert s n. induction sub as [|a sub IH]; intros s n; [by destruct s|].
  destruct s as [|b s]; [by destruct n|].
  destruct n as [|n]; [done|]. cbn.
  destruct (ascii_dec a b); [apply IH|done].
Qed.

Lemma contains_substring (sub s : string) (n : nat) :
  contains sub (substring 0 n s) = true → contains sub s = true.
Proof.
  revert n. induction s as [|b s IH]; intros n; [by destruct n|].
  destruct n as [|n].
  - cbn [substring contains]. rewrite orb_false_r. intros H.
    apply orb_true_iff. left. by destruct sub.
  - cbn [substring contains]. rewrite !orb_true_iff. intros [H | H].
    + left. by apply (prefix_substring sub (String b s) (S n)).
    + right. by apply (IH n).
Qed.

Lemma split_go_absent (sep cur s : string) :
  contains sep s = false → split_go sep 0 cur s = [cur +:+ s].
Proof.
  revert cur. induction s as [|ch s IH]; intros cur.
  - intros _. cbn. by rewrite append_nil_r.
  - cbn [contains split_go]. intros [Hp Hc]%orb_false_iff.
    rewrite Hp, IH by done. by rewrite append_snoc.
Qed.

(** X9: a file name in which none of the words squiggle, oval and diamond
    occurs is never decoded: [from_filename] raises [KeyError] (unknown
    color) or [IndexError] (nothing after the symbol). *)
Theorem from_filename_no_symbol (f : string) :
  contains "squiggle" f = false →
  contains "oval" f = false →
  contains "diamond" f = false →
  from_filename f = Raise KeyError ∨ from_filename f = Raise IndexError.
Proof.
  intros Hs Ho Hd. unfold from_filename. rewrite Hs, Ho. cbv zeta.
  unfold split. rewrite split_go_absent; cycle 1.
  { destruct (contains "diamond" (drop_last 4 f)) eqn:E; [|done].
    apply contains_substring in E. congruence. }
  unfold list_get. cbn [lookup list_lookup]. run_result.
  destruct (dict_get color_map _) as [col|e] eqn:E; run_result.
  - by right.
  - left. unfold dict_get in E. destruct (_ !! _); congruence.
Qed.

Lemma from_filename_no_symbol_witness :
  from_filename "redcircleempty1.gif" = Raise KeyError ∨
  from_filename "redcircleempty1.gif" = Raise IndexError.
Proof.
  apply (from_filename_no_symbol "redcircleempty1.gif"); vm_compute; reflexivity.
Defined.

(** ** Loading the folder *)

Lemma load_loop_Ok (files : list string) (acc deck : list Card) :
  for_each (fun f cards => card ← from_filename f; mret (cards ++ [card]))
    files acc = Ok deck ↔
  ∃ cards, deck = acc ++ cards ∧
           Forall2 (fun f c => from_filename f = Ok c) files cards.
Proof.
  revert acc. induction files as [|f files IH]; intros acc.
  - cbn [for_each]. split.
    + intros [= <-]. exists []. by rewrite app_nil_r.
    + intros (cards & -> & ->%Forall2_nil_inv_l). by rewrite app_nil_r.
  - cbn [for_each]. destruct (from_filename f) as [c|e] eqn:Hf; run_result.
    + rewrite IH. split.
      * intros (cards & -> & Hall). exists (c :: cards).
        rewrite <- app_assoc. split; [done|]. by constructor.
      * intros (cards & -> & Hall).
        apply Forall2_cons_inv_l in Hall as (c' & cards' & Hc & Hall & ->).
        exists cards'. rewrite <- app_assoc. split; [|done].
        assert (c' = c) as -> by congruence. done.
    + split; [done|]. intros (cards & _ & Hall).
      apply Forall2_cons_inv_l in Hall as (c' & cards' & Hc & _). congruence.
Qed.

(** X10: the deck [load_cards_from_folder] returns holds one card per name
    of the listing that ends in [.gif], in listing order, each decoded from
    its name and carrying it; the other names are skipped. *)
Theorem load_cards_from_folder_names (card_files : list string) (deck : list Card) :
  load_cards_from_folder card_files = Ok deck →
  Forall2 (fun f c => from_filename f = Ok c)
    (filter (fun f => endswith f ".gif" = true) card_files) deck ∧
  filename <$> deck = filter (fun f => endswith f ".gif" = true) card_files ∧
  length deck ≤ length card_files.
Proof.
  unfold load_cards_from_folder.
  intros (cards & -> & Hall)%load_loop_Ok. cbn [app].
  split; [done|]. split.
  - induction Hall as [|f c fs cs Hf _ IH]; [done|].
    rewrite fmap_cons, IH. f_equal.
    by apply from_filename_parts in Hf as [-> _].
  - rewrite <- (Forall2_length _ _ _ Hall). apply length_filter.
Qed.

Lemma load_cards_from_folder_names_witness :
  Forall2 (fun f c => from_filename f = Ok c)
    (filter (fun f => endswith f ".gif" = true)
       ["a.txt"; "redovalempty1.gif"; "gif"])
    [mkCard "red" "oval" "empty" 1 "redovalempty1.gif"] ∧
  filename <$> [mkCard "red" "oval" "empty" 1 "redovalempty1.gif"] =
    filter (fun f => endswith f ".gif" = true)
      ["a.txt"; "redovalempty1.gif"; "gif"] ∧
  length [mkCard "red" "oval" "empty" 1 "redovalempty1.gif"] ≤
    length ["a.txt"; "redovalempty1.gif"; "gif"].
Proof.
  apply (load_cards_from_folder_names ["a.txt"; "redovalempty1.gif"; "gif"]).
  vm_compute. reflexivity.
Defined.

(** X11: [load_cards_from_folder] returns a deck exactly when every name of
    the listing that ends in [.gif] is decoded by [from_filename]: one name
    that is not makes the whole load raise. *)
Theorem load_cards_from_folder_returns (card_files : list string) :
  (∃ deck, load_cards_from_folder card_files = Ok deck) ↔
  ∀ f, f ∈ card_files → endswith f ".gif" = true → ∃ c, from_filename f = Ok c.
Proof.
  unfold load_cards_from_folder. split.
  - intros [deck (cards & _ & Hall)%load_loop_Ok] f Hf Hgif.
    assert (f ∈ filter (fun f => endswith f ".gif" = true) card_files) as Hin
      by by apply list_elem_of_filter.
    apply list_elem_of_lookup_1 in Hin as [i Hi].
    destruct (Forall2_lookup_l _ _ _ _ _ Hall Hi) as (c & _ & Hc). eauto.
  - intros H.
    assert (∃ cards, Forall2 (fun f c => from_filename f = Ok c)
              (filter (fun f => endswith f ".gif" = true) card_files) cards)
      as [cards Hall].
    { assert (Forall (fun f => ∃ c, from_filename f = Ok c)
                (filter (fun f => endswith f ".gif" = true) card_files)) as HF.
      { apply Forall_forall. intros f [Hgif Hf]%list_elem_of_filter. auto. }
      induction HF as [|f fs [c Hc] _ [cs IH]]; [by exists []|].
      exists (c :: cs). by constructor. }
    exists cards. apply load_loop_Ok. by exists cards.
Qed.

(** ** Replacement: bounds and conservation *)

Lemma replace_step_Ok (idx : nat) (displayed displayed' : board)
    (deck deck' : list Card) :
  replace_step idx (displayed, deck) = Ok (displayed', deck') →
  idx < length displayed ∧
  displayed' = <[idx := deck !! 0]> displayed ∧ deck' = drop 1 deck.
Proof.
  destruct (decide (idx < length displayed)) as [Hlt|Hge].
  - rewrite replace_step_ok by done. by intros [= <- <-].
  - rewrite replace_step_out_of_range by lia. done.
Qed.

Lemma replace_cards_cons (idx : nat) (indices : list nat) (displayed : board)
    (deck : list Card) :
  replace_cards (idx :: indices) (displayed, deck) =
  if decide (idx < length displayed)
  then replace_cards indices (<[idx := deck !! 0]> displayed, drop 1 deck)
  else Raise IndexError.
Proof.
  unfold replace_cards. cbn [for_each]. case_decide.
  - rewrite replace_step_ok by done. by run_result.
  - rewrite replace_step_out_of_range by lia. by run_result.
Qed.

(** X12: an index outside the board makes [replace_cards] raise
    [IndexError], wherever it stands in the batch. *)
Theorem replace_cards_out_of_range (indices : list nat) (displayed : board)
    (deck : list Card) (idx : nat) :
  idx ∈ indices → length displayed ≤ idx →
  replace_cards indices (displayed, deck) = Raise IndexError.
Proof.
  revert displayed deck. induction indices as [|i indices IH];
    intros displayed deck Hin Hidx; [by apply elem_of_nil in Hin|].
  rewrite replace_cards_cons. case_decide as Hi; [|done].
  apply elem_of_cons in Hin as [-> | Hin]; [lia|].
  apply IH; [done|]. by rewrite length_insert.
Qed.

Lemma replace_cards_out_of_range_witness :
  replace_cards [0; 12; 1] (displayed_cards dealt_game, remaining_deck dealt_game) =
  Raise IndexError.
Proof.
  apply (replace_cards_out_of_range _ _ _ 12).
  - apply (bool_decide_unpack _). vm_compute. exact I.
  - vm_compute. lia.
Defined.

Lemma cards_on_cons (o : option Card) (displayed : board) :
  cards_on (o :: displayed) = option_list o ++ cards_on displayed.
Proof. by destruct o. Qed.

Lemma cards_on_app (d1 d2 : board) : cards_on (d1 ++ d2) = cards_on d1 ++ cards_on d2.
Proof. apply omap_app. Qed.

Lemma replace_step_submseteq (idx : nat) (displayed : board) (deck : list Card) :
  idx < length displayed →
  cards_on (<[idx := deck !! 0]> displayed) ++ drop 1 deck ⊆+
  cards_on displayed ++ deck.
Proof.
  intros Hidx. destruct (lookup_lt_is_Some_2 displayed idx Hidx) as [o Ho].
  rewrite insert_take_drop by done.
  rewrite <- (take_drop_middle displayed idx o Ho) at 3.
  rewrite !cards_on_app, !cards_on_cons, <- !app_assoc.
  apply submseteq_skips_l.
  destruct deck as [|c deck]; simpl.
  - apply submseteq_inserts_l. done.
  - apply submseteq_inserts_l.
    rewrite drop_0. apply Permutation_submseteq, Permutation_middle.
Qed.

Lemma replace_cards_Ok (indices : list nat) (displayed displayed' : board)
    (deck deck' : list Card) :
  replace_cards indices (displayed, deck) = Ok (displayed', deck') →
  length displayed' = length displayed ∧
  deck' = drop (length indices) deck ∧
  cards_on displayed' ++ deck' ⊆+ cards_on displayed ++ deck ∧
  (∀ slot, slot ∉ indices → displayed' !! slot = displayed !! slot) ∧
  (∀ idx, idx ∈ indices → idx < length displayed).
Proof.
  revert displayed deck. induction indices as [|i indices IH];
    intros displayed deck.
  - unfold replace_cards. cbn [for_each]. intros [= <- <-].
    repeat split; try done. intros idx Hidx. by apply elem_of_nil in Hidx.
  - rewrite replace_cards_cons. case_decide as Hi; [|done].
    intros (Hlen & Hdeck & Hsub & Hout & Hrange)%IH.
    rewrite length_insert in Hlen, Hrange. rewrite drop_drop in Hdeck.
    repeat split; try done.
    + etrans; [exact Hsub|]. by apply replace_step_submseteq.
    + intros slot [Hne Hslot]%not_elem_of_cons.
      rewrite (Hout slot Hslot). by apply list_lookup_insert_ne.
    + intros idx [-> | Hidx]%elem_of_cons; auto.
Qed.

(** X13: when [replace_cards] returns, the board has as many slots as
    before, and the cards then on the board and in the deck are cards that
    were on the board or in the deck, none counted more often than before:
    no card is invented or doubled, and a table without a double card stays
    without one. *)
Theorem replace_cards_conserves (indices : list nat) (displayed displayed' : board)
    (deck deck' : list Card) :
  replace_cards indices (displayed, deck) = Ok (displayed', deck') →
  length displayed' = length displayed ∧
  cards_on displayed' ++ deck' ⊆+ cards_on displayed ++ deck ∧
  (NoDup (cards_on displayed ++ deck) → NoDup (cards_on displayed' ++ deck')).
Proof.
  intros (Hlen & _ & Hsub & _)%replace_cards_Ok.
  repeat split; try done.
  intros Hnd. apply submseteq_Permutation in Hsub as [k Hk].
  rewrite Hk in Hnd. by apply NoDup_app in Hnd as [? _].
Qed.

Lemma replace_cards_conserves_witness :
  length (displayed_cards (game_at 1)) = length (displayed_cards dealt_game) ∧
  cards_on (displayed_cards (game_at 1)) ++ remaining_deck (game_at 1) ⊆+
    cards_on (displayed_cards dealt_game) ++ remaining_deck dealt_game ∧
  (NoDup (cards_on (displayed_cards dealt_game) ++ remaining_deck dealt_game) →
   NoDup (cards_on (displayed_cards (game_at 1)) ++ remaining_deck (game_at 1))).
Proof.
  apply (replace_cards_conserves [0; 1; 2]). vm_compute. reflexivity.
Defined.

(** X14: when no index occurs twice in the batch, no card of the deck is
    lost: each card of the deck is still in the deck or lies on the board
    afterwards. *)
Theorem replace_cards_keeps_deck (indices : list nat) (displayed displayed' : board)
    (deck deck' : list Card) :
  NoDup indices →
  replace_cards indices (displayed, deck) = Ok (displayed', deck') →
  ∀ c, c ∈ deck → c ∈ deck' ∨ Some c ∈ displayed'.
Proof.
  intros Hnd. revert displayed deck.
  induction Hnd as [|i indices Hi Hnd IH]; intros displayed deck.
  - unfold replace_cards. cbn [for_each]. intros [= <- <-]. auto.
  - rewrite replace_cards_cons. case_decide as Hlt; [|done].
    intros Hrun c Hc.
    destruct deck as [|c0 deck]; [by apply elem_of_nil in Hc|].
    apply elem_of_cons in Hc as [-> | Hc].
    + right. apply replace_cards_Ok in Hrun as (_ & _ & _ & Hout & _).
      apply (list_elem_of_lookup_2 _ i). rewrite (Hout i Hi).
      by apply list_lookup_insert_eq.
    + by apply (IH _ _ Hrun).
Qed.

Lemma replace_cards_keeps_deck_witness :
  mkCard "red" "squiggle" "filled" 1 "redsquigglefilled1.gif"
    ∈ remaining_deck (game_at 1) ∨
  Some (mkCard "red" "squiggle" "filled" 1 "redsquigglefilled1.gif")
    ∈ displayed_cards (game_at 1).
Proof.
  apply (replace_cards_keeps_deck [0; 1; 2] (displayed_cards dealt_game)
           (displayed_cards (game_at 1)) (remaining_deck dealt_game)).
  - apply (bool_decide_unpack _). vm_compute. exact I.
  - vm_compute. reflexivity.
  - apply (bool_decide_unpack _). vm_compute. exact I.
Defined.

(** ** Drawing and hit-testing *)

(** X15: a click inside the cell in which slot [i] is drawn (the 240 by 190
    pixels from the corner of its image, which hold the 150 by 100
    highlight rectangle) is taken as a click on slot [i]. *)
Theorem click_on_drawn_card (i dx dy : Z) :
  (0 ≤ i)%Z → (0 ≤ dx < 240)%Z → (0 ≤ dy < 190)%Z →
  clicked_index ((card_position i).1 + dx) ((card_position i).2 + dy) = i.
Proof.
  intros Hi Hdx Hdy. unfold clicked_index, card_position. cbn [fst snd].
  replace (i / 4 * 200 + 10 + dy)%Z with (i / 4 * 200 + (10 + dy))%Z by lia.
  replace (i mod 4 * 250 + 10 + dx)%Z with (i mod 4 * 250 + (10 + dx))%Z by lia.
  rewrite !Z.div_add_l by lia.
  rewrite (Z.div_small (10 + dy) 200), (Z.div_small (10 + dx) 250) by lia.
  pose proof (Z.div_mod i 4 ltac:(lia)). lia.
Qed.

Lemma click_on_drawn_card_witness :
  clicked_index ((card_position 7).1 + 149) ((card_position 7).2 + 99) = 7%Z.
Proof. apply (click_on_drawn_card 7 149 99); lia. Defined.

(** X16: the column of a click is not bounded: a click right of the fourth
    column, from x = 1000 on, is taken as a click on the first slot of the
    row below. *)
Theorem click_right_of_fourth_column (x y : Z) :
  (1000 ≤ x < 1250)%Z → (0 ≤ y)%Z →
  clicked_index x y = ((y / 200 + 1) * 4)%Z ∧
  clicked_index x y = clicked_index 0 (y + 200).
Proof.
  intros Hx Hy. unfold clicked_index.
  assert (x / 250 = 4)%Z as ->
    by (symmetry; apply Z.div_unique with (x - 1000)%Z; lia).
  replace (y + 200)%Z with (1 * 200 + y)%Z by lia.
  rewrite Z.div_add_l by lia. rewrite Z.div_0_l by lia. lia.
Qed.

Lemma click_right_of_fourth_column_witness :
  clicked_index 1010 50 = ((50 / 200 + 1) * 4)%Z ∧
  clicked_index 1010 50 = clicked_index 0 (50 + 200).
Proof. apply (click_right_of_fourth_column 1010 50); lia. Defined.

(** ** Invariants of the event loop *)

(** What a tick has done when its handler returns. *)
Lemma on_tick_outcome (g g1 : Game) :
  on_tick g = Ok g1 →
  game_state g1 = game_state g ∧
  selected_cards g1 = selected_cards g ∧
  player_score g1 = player_score g ∧
  home_timer g1 = home_timer g ∧
  all_cards g1 = all_cards g ∧
  ((0 < timer g - 1)%Z ∧ timer g1 = (timer g - 1)%Z ∧
   displayed_cards g1 = displayed_cards g ∧
   remaining_deck g1 = remaining_deck g ∧
   computer_score g1 = computer_score g
   ∨
   (timer g - 1 ≤ 0)%Z ∧ timer g1 = home_timer g ∧
   (computer_score g1 = computer_score g ∨
    computer_score g1 = (computer_score g + 1)%Z) ∧
   ∃ indices,
     replace_cards indices (displayed_cards g, remaining_deck g) =
     Ok (displayed_cards g1, remaining_deck g1)).
Proof.
  unfold on_tick. destruct (Z.leb_spec (timer g - 1) 0) as [Ht|Ht].
  - destruct (find_one_set _) as [[[[i j] k]|]|e]; run_result; [| |done].
    + destruct (replace_cards _ _) as [[d r]|e] eqn:Hrun; run_result; [|done].
      intros [= <-]. fields. repeat (split; [done|]). right.
      repeat (split; [done|]). split; [by right|]. by exists [i; j; k].
    + destruct (replace_cards _ _) as [[d r]|e] eqn:Hrun; run_result; [|done].
      intros [= <-]. fields. repeat (split; [done|]). right.
      repeat (split; [done|]). split; [by left|]. by exists [0; 1; 2].
  - intros [= <-]. fields. repeat (split; [done|]). left. by repeat split.
Qed.

Lemma on_click_all_cards (x y : Z) (g g2 : Game) :
  on_click x y g = Ok g2 → all_cards g2 = all_cards g ∧ home_timer g2 = home_timer g.
Proof.
  unfold on_click. destruct (click_hits _ _); [|by intros [= <-]].
  destruct (_ =? 3); [|by intros [= <-]].
  destruct (for_each _ _ _) as [cards|e]; run_result; [|done].
  destruct (is_set_star cards) as [[|]|e]; run_result; [| |done].
  - destruct (replace_cards _ _) as [[d r]|e]; run_result; [|done].
    by intros [= <-].
  - by intros [= <-].
Qed.

(** Between the state before and the state after an event of the playing
    state stands one call of [replace_cards], or none. *)
Lemma playing_event_table (ev : Event) (g g' : Game) :
  playing_event ev g = Ok g' →
  all_cards g' = all_cards g ∧
  home_timer g' = home_timer g ∧
  ∃ indices,
    replace_cards indices (displayed_cards g, remaining_deck g) =
    Ok (displayed_cards g', remaining_deck g').
Proof.
  rewrite playing_event_branch. intros (g2 & Hbranch & Hend)%bind_Ok_inv.
  assert (all_cards g2 = all_cards g ∧ home_timer g2 = home_timer g ∧
          ∃ indices,
            replace_cards indices (displayed_cards g, remaining_deck g) =
            Ok (displayed_cards g2, remaining_deck g2)) as Hg2.
  { destruct ev as [| |x y|].
    - injection Hbranch as <-. repeat split. by exists [].
    - apply on_tick_outcome in Hbranch
        as (_ & _ & _ & Hh & Ha & [(_ & _ & Hb & Hd & _) | (_ & _ & _ & Hrep)]).
      + repeat split; try done. exists []. by rewrite Hb, Hd.
      + by repeat split.
    - destruct (on_click_all_cards _ _ _ _ Hbranch) as [Ha Hh].
      repeat split; try done.
      apply on_click_outcome in Hbranch as (_ & Hmiss & Hhit).
      destruct (click_hits _ _).
      + destruct (Hhit eq_refl) as [Hkeep Heval].
        destruct (decide (length (toggle (Z.to_nat (clicked_index x y))
                                    (selected_cards g)) = 3)) as [Hlen|Hlen].
        * destruct (Heval Hlen)
            as (_ & i1 & i2 & i3 & c1 & c2 & c3 & valid & _ & _ & _ & _ & _ & Ht & Hf).
          destruct valid.
          -- destruct (Ht eq_refl) as (_ & _ & Hrep & _). eauto.
          -- destruct (Hf eq_refl) as (Hb & Hd & _). exists []. by rewrite Hb, Hd.
        * destruct (Hkeep Hlen) as [_ (Hb & Hd & _)]. exists []. by rewrite Hb, Hd.
      + destruct (Hmiss eq_refl) as [_ (Hb & Hd & _)]. exists []. by rewrite Hb, Hd.
    - injection Hbranch as <-. repeat split. by exists []. }
  by destruct (end_check_cases g2 g' Hend) as [-> | ->].
Qed.

Lemma cards_on_Some (cards : list Card) : cards_on (Some <$> cards) = cards.
Proof. unfold cards_on. induction cards as [|c cards IH]; cbn; by rewrite ?IH. Qed.

(** X17: an event changes the state of the game only from home to playing
    (a click), from playing to the end, or from the end to home (a click). *)
Theorem handle_event_transitions (shuffled : list Card) (ev : Event) (g g' : Game) :
  handle_event shuffled ev g = Ok g' →
  game_state g' = game_state g ∨
  (game_state g = Home ∧ game_state g' = Playing ∧
   ∃ x y, ev = MOUSEBUTTONDOWN x y) ∨
  (game_state g = Playing ∧ game_state g' = End) ∨
  (game_state g = End ∧ game_state g' = Home ∧
   ∃ x y, ev = MOUSEBUTTONDOWN x y).
Proof.
  unfold handle_event. destruct (game_state g) eqn:Hs.
  - intros [= <-]. unfold home_event. destruct ev as [| |x y|]; auto.
    repeat (destruct (_ && _); fields; auto). right. left. eauto.
  - rewrite playing_event_branch. intros (g2 & Hbranch & Hend)%bind_Ok_inv.
    assert (game_state g2 = Playing) as Hs2.
    { destruct ev as [| |x y|].
      - by injection Hbranch as <-.
      - apply on_tick_state in Hbranch. congruence.
      - apply on_click_outcome in Hbranch as [? _]. congruence.
      - by injection Hbranch as <-. }
    destruct (end_check_cases g2 g' Hend) as [-> | ->]; fields; auto.
  - intros [= <-]. unfold end_event. destruct ev as [| |x y|]; auto.
    destruct (_ && _); fields; auto. right. right. right. eauto.
Qed.

Lemma handle_event_transitions_witness :
  game_state (dealt_game) = game_state (initial_game kaarten_cards) ∨
  (game_state (initial_game kaarten_cards) = Home ∧
   game_state (dealt_game) = Playing ∧
   ∃ x y, MOUSEBUTTONDOWN 500 420 = MOUSEBUTTONDOWN x y) ∨
  (game_state (initial_game kaarten_cards) = Playing ∧
   game_state (dealt_game) = End) ∨
  (game_state (initial_game kaarten_cards) = End ∧
   game_state (dealt_game) = Home ∧
   ∃ x y, MOUSEBUTTONDOWN 500 420 = MOUSEBUTTONDOWN x y).
Proof.
  apply (handle_event_transitions kaarten_cards). vm_compute. reflexivity.
Defined.

(** X18: the board keeps its 12 slots: an event leaves a board of 12 slots
    with 12 slots, a new deal included when the deck has 12 cards or
    more. *)
Theorem handle_event_board_length (shuffled : list Card) (ev : Event) (g g' : Game) :
  handle_event shuffled ev g = Ok g' →
  12 ≤ length shuffled →
  length (displayed_cards g) = 12 →
  length (displayed_cards g') = 12.
Proof.
  unfold handle_event. intros Hrun Hdeck Hlen. destruct (game_state g).
  - injection Hrun as <-. unfold home_event. destruct ev as [| |x y|]; auto.
    repeat (destruct (_ && _); fields; auto).
    unfold reset_game; fields. rewrite length_fmap, length_take. lia.
  - apply playing_event_table in Hrun as (_ & _ & indices & Hrep).
    apply replace_cards_Ok in Hrep as [-> _]. done.
  - injection Hrun as <-. unfold end_event. destruct ev as [| |x y|]; auto.
    destruct (_ && _); fields; auto.
Qed.

Lemma handle_event_board_length_witness :
  length (displayed_cards (game_at 25)) = 12.
Proof.
  apply (handle_event_board_length kaarten_cards USEREVENT (game_at 24)).
  - vm_compute. reflexivity.
  - vm_compute. lia.
  - vm_compute. reflexivity.
Defined.

(** X19: the cards on the board and in the deck are cards of [all_cards],
    none more often than there: an event keeps this, so on a deck without
    double cards no card is ever on the table twice. *)
Theorem handle_event_cards (shuffled : list Card) (ev : Event) (g g' : Game) :
  handle_event shuffled ev g = Ok g' →
  cards_on (displayed_cards g) ++ remaining_deck g ⊆+ all_cards g →
  cards_on (displayed_cards g') ++ remaining_deck g' ⊆+ all_cards g' ∧
  (NoDup (all_cards g') →
   NoDup (cards_on (displayed_cards g') ++ remaining_deck g')).
Proof.
  intros Hrun Hsub.
  assert (cards_on (displayed_cards g') ++ remaining_deck g' ⊆+ all_cards g')
    as Hsub'.
  { unfold handle_event in Hrun. destruct (game_state g).
    - injection Hrun as <-. unfold home_event. destruct ev as [| |x y|]; auto.
      repeat (destruct (_ && _); fields; auto).
      unfold reset_game; fields. by rewrite cards_on_Some, take_drop.
    - apply playing_event_table in Hrun as (-> & _ & indices & Hrep).
      apply replace_cards_Ok in Hrep as (_ & _ & Hstep & _).
      by etrans.
    - injection Hrun as <-. unfold end_event. destruct ev as [| |x y|]; auto.
      destruct (_ && _); fields; auto. }
  split; [done|]. intros Hnd.
  apply submseteq_Permutation in Hsub' as [k Hk].
  rewrite Hk in Hnd. by apply NoDup_app in Hnd as [? _].
Qed.

Lemma handle_event_cards_witness :
  cards_on (displayed_cards (game_at 25)) ++ remaining_deck (game_at 25) ⊆+
    all_cards (game_at 25) ∧
  (NoDup (all_cards (game_at 25)) →
   NoDup (cards_on (displayed_cards (game_at 25)) ++ remaining_deck (game_at 25))).
Proof.
  apply (handle_event_cards kaarten_cards USEREVENT (game_at 24)).
  - vm_compute. reflexivity.
  - apply (bool_decide_unpack _). vm_compute. exact I.
Defined.

(** X20: the round length and the countdown never drop below one second,
    and while playing the countdown never exceeds the round length. *)
Theorem handle_event_timers (shuffled : list Card) (ev : Event) (g g' : Game) :
  handle_event shuffled ev g = Ok g' →
  (1 ≤ home_timer g)%Z → (1 ≤ timer g)%Z →
  (game_state g = Playing → (timer g ≤ home_timer g)%Z) →
  (1 ≤ home_timer g')%Z ∧ (1 ≤ timer g')%Z ∧
  (game_state g' = Playing → (timer g' ≤ home_timer g')%Z).
Proof.
  unfold handle_event. intros Hrun Hh Ht Hle. destruct (game_state g) eqn:Hs.
  - injection Hrun as <-. unfold home_event. destruct ev as [| |x y|];
      try (rewrite Hs; repeat split; (done || lia)).
    repeat (destruct (_ && _); unfold reset_game; fields; try rewrite Hs);
      repeat split; try done; lia.
  - specialize (Hle eq_refl).
    rewrite playing_event_branch in Hrun.
    apply bind_Ok_inv in Hrun as (g2 & Hbranch & Hend).
    assert ((1 ≤ home_timer g2)%Z ∧ (1 ≤ timer g2 ≤ home_timer g2)%Z) as Hg2.
    { destruct ev as [| |x y|].
      - injection Hbranch as <-. lia.
      - apply on_tick_outcome in Hbranch
          as (_ & _ & _ & Hh2 & _ & [(? & ? & _) | (_ & ? & _)]); lia.
      - destruct (on_click_all_cards _ _ _ _ Hbranch) as [_ Hh2].
        apply on_click_outcome in Hbranch as (_ & Hmiss & Hhit).
        destruct (click_hits _ _).
        + destruct (Hhit eq_refl) as [Hkeep Heval].
          destruct (decide (length (toggle (Z.to_nat (clicked_index x y))
                                      (selected_cards g)) = 3)) as [Hlen|Hlen].
          * destruct (Heval Hlen)
              as (_ & i1 & i2 & i3 & c1 & c2 & c3 & valid & _ & _ & _ & _ & _ & Hv & Hf).
            destruct valid.
            -- destruct (Hv eq_refl) as (_ & ? & _). lia.
            -- destruct (Hf eq_refl) as (_ & _ & _ & _ & ? & _). lia.
          * destruct (Hkeep Hlen) as [_ (_ & _ & _ & _ & ? & _)]. lia.
        + destruct (Hmiss eq_refl) as [_ (_ & _ & _ & _ & ? & _)]. lia.
      - injection Hbranch as <-. lia. }
    destruct (end_check_cases g2 g' Hend) as [-> | ->]; fields;
      repeat split; try lia; done.
  - injection Hrun as <-. unfold end_event. destruct ev as [| |x y|];
      try (rewrite Hs; repeat split; (done || lia)).
    destruct (_ && _); fields; try rewrite Hs; repeat split; try done; lia.
Qed.

Lemma handle_event_timers_witness :
  (1 ≤ home_timer (game_at 25))%Z ∧ (1 ≤ timer (game_at 25))%Z ∧
  (game_state (game_at 25) = Playing →
   (timer (game_at 25) ≤ home_timer (game_at 25))%Z).
Proof.
  apply (handle_event_timers kaarten_cards USEREVENT (game_at 24)).
  - vm_compute. reflexivity.
  - vm_compute. discriminate.
  - vm_compute. discriminate.
  - intros _. vm_compute. discriminate.
Defined.

(** *** The selection and the scores *)

Lemma list_remove_first_sublist (x : nat) (l : list nat) :
  list_remove_first x l `sublist_of` l.
Proof.
  induction l as [|y l IH]; [done|]. cbn [list_remove_first].
  destruct (decide (y = x)); [by apply sublist_cons|by apply sublist_skip].
Qed.

Lemma toggle_NoDup (idx : nat) (selected : list nat) :
  NoDup selected → NoDup (toggle idx selected).
Proof.
  intros Hnd. unfold toggle. destruct (bool_decide_reflect (idx ∈ selected)).
  - eapply sublist_NoDup; [done|apply list_remove_first_sublist].
  - apply NoDup_app. repeat split; [done| |apply NoDup_singleton].
    intros i Hi ->%list_elem_of_singleton. done.
Qed.

Lemma toggle_length (idx : nat) (selected : list nat) :
  length (toggle idx selected) ≤ S (length selected).
Proof.
  unfold toggle. destruct (bool_decide _).
  - etrans; [apply sublist_length, list_remove_first_sublist|lia].
  - rewrite length_app. cbn. lia.
Qed.

Lemma click_hits_lt (displayed : board) (ci : Z) :
  click_hits displayed ci = true → Z.to_nat ci < length displayed.
Proof.
  unfold click_hits. rewrite !andb_true_iff.
  intros [[?%Z.leb_le ?%Z.ltb_lt] _]. lia.
Qed.

(** What an event does to the selection: only a click while playing
    changes it. *)
Lemma handle_event_selection (shuffled : list Card) (ev : Event) (g g' : Game) :
  handle_event shuffled ev g = Ok g' →
  selected_cards g' = selected_cards g ∨
  game_state g = Playing ∧
  ∃ x y, ev = MOUSEBUTTONDOWN x y ∧
    click_hits (displayed_cards g) (clicked_index x y) = true ∧
    let selected := toggle (Z.to_nat (clicked_index x y)) (selected_cards g) in
    selected_cards g' = (if length selected =? 3 then [] else selected).
Proof.
  unfold handle_event. intros Hrun. destruct (game_state g) eqn:Hs.
  - injection Hrun as <-. left. unfold home_event. destruct ev as [| |x y|]; auto.
    repeat (destruct (_ && _); unfold reset_game; fields; auto).
  - rewrite playing_event_branch in Hrun.
    apply bind_Ok_inv in Hrun as (g2 & Hbranch & Hend).
    assert (selected_cards g' = selected_cards g2) as ->.
    { by destruct (end_check_cases g2 g' Hend) as [-> | ->]. }
    destruct ev as [| |x y|].
    + injection Hbranch as <-. by left.
    + apply on_tick_outcome in Hbranch as (_ & ? & _). by left.
    + apply on_click_outcome in Hbranch as (_ & Hmiss & Hhit).
      destruct (click_hits _ _) eqn:Hc.
      * right. split; [done|]. exists x, y. split; [done|]. split; [done|].
        destruct (Hhit eq_refl) as [Hkeep Heval]. cbn zeta.
        destruct (Nat.eqb_spec
                    (length (toggle (Z.to_nat (clicked_index x y))
                               (selected_cards g))) 3) as [Hlen|Hlen].
        -- by destruct (Heval Hlen) as [? _].
        -- by destruct (Hkeep Hlen) as [? _].
      * left. by destruct (Hmiss eq_refl) as [? _].
    + injection Hbranch as <-. by left.
  - injection Hrun as <-. left. unfold end_event. destruct ev as [| |x y|]; auto.
    destruct (_ && _); fields; auto.
Qed.

(** X21: on a board of 12 slots the selection never holds three indices
    after an event, holds no index twice and only indices below 12; outside
    the playing state no event changes it, so a new game starts with the
    selection of the last one. *)
Theorem handle_event_selected (shuffled : list Card) (ev : Event) (g g' : Game) :
  handle_event shuffled ev g = Ok g' →
  length (displayed_cards g) = 12 →
  NoDup (selected_cards g) →
  length (selected_cards g) ≤ 2 →
  (∀ i, i ∈ selected_cards g → i < 12) →
  NoDup (selected_cards g') ∧
  length (selected_cards g') ≤ 2 ∧
  (∀ i, i ∈ selected_cards g' → i < 12) ∧
  (game_state g ≠ Playing → selected_cards g' = selected_cards g).
Proof.
  intros Hrun Hboard Hnd Hlen Hidx.
  destruct (handle_event_selection _ _ _ _ Hrun)
    as [-> | (Hs & x & y & -> & Hhit & Hsel)]; [done|].
  cbn zeta in Hsel. rewrite Hsel.
  pose proof (toggle_length (Z.to_nat (clicked_index x y)) (selected_cards g)).
  pose proof (toggle_NoDup (Z.to_nat (clicked_index x y)) _ Hnd).
  destruct (Nat.eqb_spec
              (length (toggle (Z.to_nat (clicked_index x y)) (selected_cards g))) 3).
  - repeat split; [constructor|cbn; lia|by intros i ?%elem_of_nil|done].
  - repeat split; [done|lia| |done].
    intros i [-> | Hi]%toggle_elem; [|auto].
    rewrite <- Hboard. by apply click_hits_lt.
Qed.

Lemma handle_event_selected_witness :
  NoDup (selected_cards (after_event pick_slot_0 dealt_game)) ∧
  length (selected_cards (after_event pick_slot_0 dealt_game)) ≤ 2 ∧
  (∀ i, i ∈ selected_cards (after_event pick_slot_0 dealt_game) → i < 12) ∧
  (game_state dealt_game ≠ Playing →
   selected_cards (after_event pick_slot_0 dealt_game) = selected_cards dealt_game).
Proof.
  apply (handle_event_selected kaarten_cards pick_slot_0 dealt_game).
  - vm_compute. reflexivity.
  - vm_compute. reflexivity.
  - vm_compute. constructor.
  - vm_compute. lia.
  - vm_compute. intros i Hi. by apply elem_of_nil in Hi.
Defined.

(** X22: while playing, an event changes the scores by one point at most:
    a tick can give the computer a point, a click can give the player one,
    and nothing else changes a score. *)
Theorem playing_event_scores (ev : Event) (g g' : Game) :
  playing_event ev g = Ok g' →
  (player_score g' = player_score g ∧ computer_score g' = computer_score g) ∨
  (ev = USEREVENT ∧ (timer g ≤ 1)%Z ∧
   player_score g' = player_score g ∧
   computer_score g' = (computer_score g + 1)%Z) ∨
  ((∃ x y, ev = MOUSEBUTTONDOWN x y) ∧
   player_score g' = (player_score g + 1)%Z ∧
   computer_score g' = computer_score g ∧ selected_cards g' = []).
Proof.
  rewrite playing_event_branch. intros Hrun.
  apply bind_Ok_inv in Hrun as (g2 & Hbranch & Hend).
  assert (player_score g' = player_score g2 ∧
          computer_score g' = computer_score g2 ∧
          selected_cards g' = selected_cards g2) as (-> & -> & ->).
  { by destruct (end_check_cases g2 g' Hend) as [-> | ->]. }
  destruct ev as [| |x y|].
  - injection Hbranch as <-. by left.
  - apply on_tick_outcome in Hbranch
      as (_ & _ & Hp & _ & _ & [(_ & _ & _ & _ & Hc) | (Ht & _ & [Hc | Hc] & _)]);
      [by left|by left|].
    right. left. repeat split; [lia|done|done].
  - apply on_click_outcome in Hbranch as (_ & Hmiss & Hhit).
    destruct (click_hits _ _).
    + destruct (Hhit eq_refl) as [Hkeep Heval].
      destruct (decide (length (toggle (Z.to_nat (clicked_index x y))
                                  (selected_cards g)) = 3)) as [Hlen|Hlen].
      * destruct (Heval Hlen)
          as (Hnil & i1 & i2 & i3 & c1 & c2 & c3 & valid & _ & _ & _ & _ & _ & Hv & Hf).
        destruct valid.
        -- destruct (Hv eq_refl) as (? & _ & _ & ? & _). right. right. eauto 10.
        -- destruct (Hf eq_refl) as (_ & _ & ? & ? & _). by left.
      * destruct (Hkeep Hlen) as [_ (_ & _ & ? & ? & _)]. by left.
    + destruct (Hmiss eq_refl) as [_ (_ & _ & ? & ? & _)]. by left.
  - injection Hbranch as <-. by left.
Qed.

Lemma playing_event_scores_witness :
  (player_score (game_at 1) = player_score (game_at 0) ∧
   computer_score (game_at 1) = computer_score (game_at 0)) ∨
  (USEREVENT = USEREVENT ∧ (timer (game_at 0) ≤ 1)%Z ∧
   player_score (game_at 1) = player_score (game_at 0) ∧
   computer_score (game_at 1) = (computer_score (game_at 0) + 1)%Z) ∨
  ((∃ x y, USEREVENT = MOUSEBUTTONDOWN x y) ∧
   player_score (game_at 1) = (player_score (game_at 0) + 1)%Z ∧
   computer_score (game_at 1) = computer_score (game_at 0) ∧
   selected_cards (game_at 1) = []).
Proof.
  apply (playing_event_scores USEREVENT (game_at 0)).
  vm_compute. reflexivity.
Defined.

(** X23: the loop leaves [main] at the first [QUIT]: the events behind it
    are never handled, whatever they are and whatever they would raise. *)
Theorem run_stops_at_QUIT (shuffled : list Card) (events rest : list Event) (g : Game) :
  QUIT ∉ events →
  run shuffled (events ++ QUIT :: rest) g = run shuffled events g.
Proof.
  revert g. induction events as [|ev events IH]; intros g Hq; [done|].
  apply not_elem_of_cons in Hq as [Hne Hq].
  destruct ev; [done| | |]; cbn [run app];
    (destruct (handle_event shuffled _ g) as [g1|e]; run_result; [by apply IH|done]).
Qed.

Lemma run_stops_at_QUIT_witness :
  run kaarten_cards ([start_button; USEREVENT] ++ QUIT :: [pick_slot_0]) (initial_game kaarten_cards) =
  run kaarten_cards [start_button; USEREVENT] (initial_game kaarten_cards).
Proof.
  apply (run_stops_at_QUIT kaarten_cards [start_button; USEREVENT]).
  unfold start_button. intros H.
  repeat (apply elem_of_cons in H as [H | H]; [discriminate|]).
  by apply elem_of_nil in H.
Defined.
